(** * cons0leweb-utils: the file operations and the task-parallel file processor

    A shallow embedding of [main.py]: the Python string primitives the file
    operations use, the filesystem, codecs and log they act on, the
    operations of [FileOperations], the [FileProcessor] worker pool as an
    interleaving transition system, and what the handlers of the window
    compute. *)

From Stdlib Require Import Ascii String.
From stdpp Require Import gmap strings list.

Open Scope string_scope.

(** ** Python values and string primitives *)

Module Py.


(** [s.endswith(suffix)] *)
Definition endswith (s suffix : string) : bool :=
  bool_decide (String.length suffix ≤ String.length s)%nat &&
  String.eqb
    (substring (String.length s - String.length suffix) (String.length suffix) s)
    suffix.

(** [s[:-n]]: for [n = 0] Python reads the slice as [s[:0]], the empty
    string; otherwise all but the last [n] characters, nothing when the
    string is shorter than [n]. *)
Definition slice_to_neg (n : nat) (s : string) : string :=
  match n with
  | 0 => ""
  | S _ => substring 0 (String.length s - n) s
  end.

(** The text of a file, a Python [str], as the sequence of its code
    points. Paths, positions and messages are kept as [string]s. *)
Definition text : Type := list N.

(** The text of a literal. *)
Definition text_of (s : string) : text := N_of_ascii <$> list_ascii_of_string s.

(** The code point of "\n". *)
Definition LF : N := 10%N.

(** What reading in text mode with the default [newline=None] does to the
    decoded text: "\r\n" and a lone "\r" come out as "\n". *)
Fixpoint universal_newlines (t : text) : text :=
  match t with
  | [] => []
  | c :: t' =>
      if (c =? 13)%N then
        LF :: match t' with
              | c' :: t'' =>
                  if (c' =? 10)%N then universal_newlines t''
                  else universal_newlines t'
              | [] => []
              end
      else c :: universal_newlines t'
  end.

(** Line boundaries of [str.splitlines]. *)
Definition is_linebreak (c : N) : bool :=
  match c with
  | 10 | 11 | 12 | 13 | 28 | 29 | 30 | 133 | 8232 | 8233 => true
  | _ => false
  end%N.

(** [s.splitlines()]: [cur] is the line being read, reversed. A "\r\n" pair
    is one boundary; a trailing boundary opens no empty last line. *)
Fixpoint splitlines_go (cur : text) (s : text) : list text :=
  match s with
  | [] => match cur with [] => [] | _ => [rev cur] end
  | c :: s' =>
      if is_linebreak c then
        rev cur ::
          match s' with
          | c' :: s'' =>
              if (c =? 13)%N && (c' =? 10)%N
              then splitlines_go [] s''
              else splitlines_go [] s'
          | [] => splitlines_go [] s'
          end
      else splitlines_go (c :: cur) s'
  end.

Definition splitlines (s : text) : list text := splitlines_go [] s.

(** [sep.join(ls)] *)
Fixpoint join (sep : text) (ls : list text) : text :=
  match ls with
  | [] => []
  | [l] => l
  | l :: ls' => (l ++ sep ++ join sep ls')%list
  end.

(** [ls.insert(i, x)] for [0 <= i]: positions past the end append. *)
Definition list_insert_at {A} (i : nat) (x : A) (ls : list A) : list A :=
  take i ls ++ x :: drop i ls.

(** The values a task operation of this program returns, and their truth
    value as [if v:] reads it. *)
Inductive value :=
| VNone
| VBool (b : bool)
| VStr (s : string).


(** [datetime.now()] and [strftime("%Y%m%d_%H%M%S")]: every field is printed
    with its fixed width, zero padded (years 0..9999). *)
Record datetime := Datetime {
  year : nat; month : nat; day : nat;
  hour : nat; minute : nat; second : nat
}.

Definition digit (n : nat) : ascii := ascii_of_nat (48 + n mod 10).

Definition pad2 (n : nat) : string :=
  String (digit (n / 10)) (String (digit n) "").

Definition pad4 (n : nat) : string :=
  String (digit (n / 1000)) (String (digit (n / 100)) (pad2 n)).

Definition strftime_Ymd_HMS (d : datetime) : string :=
  pad4 (year d) +:+ pad2 (month d) +:+ pad2 (day d) +:+ "_" +:+
  pad2 (hour d) +:+ pad2 (minute d) +:+ pad2 (second d).

End Py.

(** ** The world the operations act on *)

(** Exceptions and their [str()]. The errors of the library calls below are
    of class [Exception]; [SystemExit] and [KeyboardInterrupt] are not, and
    an [except Exception] clause lets them pass. A message that Python words
    is carried by the exception. *)
Inductive exn :=
| FileNotFoundError (path : string)
| LookupError (msg : string)
| UnicodeDecodeError (msg : string)
| UnicodeEncodeError (msg : string)
| AttributeError (msg : string)
| TypeError (msg : string)
| RuntimeError (msg : string)
| SystemExit (code : string)
| KeyboardInterrupt.

Definition exn_str (e : exn) : string :=
  match e with
  | FileNotFoundError p => "[Errno 2] No such file or directory: '" +:+ p +:+ "'"
  | LookupError m | UnicodeDecodeError m | UnicodeEncodeError m
  | AttributeError m | TypeError m | RuntimeError m => m
  | SystemExit c => c
  | KeyboardInterrupt => ""
  end.

(** [isinstance(e, Exception)] *)
Definition is_Exception (e : exn) : bool :=
  match e with
  | SystemExit _ | KeyboardInterrupt => false
  | _ => true
  end.

(** ** Codecs *)

Module Codecs.

(** A codec as [open(..., encoding=...)] uses it: [decode] gives the text of
    the bytes or the message of the [UnicodeDecodeError], [encode] the bytes
    of a text or the message of the [UnicodeEncodeError]. *)
Record codec := mkCodec {
  decode : string → Py.text + string;
  encode : Py.text → string + string
}.

(** The codecs by name; [None] where the lookup raises [LookupError]. *)
Definition registry : Type := string → option codec.


(** How Python words the two errors for a given input; taken as given. *)
Record wording := mkWording {
  cannot_decode : string → string;
  cannot_encode : Py.text → string
}.

Definition bytes_of (s : string) : list N := N_of_ascii <$> list_ascii_of_string s.
Definition string_of_bytes (bs : list N) : string :=
  string_of_list_ascii (ascii_of_N <$> bs).

(** A continuation byte, 0x80..0xBF. *)
Definition cont (b : N) : bool := ((128 <=? b) && (b <=? 191))%N.

(** Strict UTF-8: no overlong forms, no surrogates, nothing above
    U+10FFFF. *)
Fixpoint utf8_decode (bs : list N) : option Py.text :=
  match bs with
  | [] => Some []
  | b0 :: r0 =>
      if (b0 <? 128)%N then (b0 ::.) <$> utf8_decode r0
      else if (b0 <? 194)%N then None
      else if (b0 <? 224)%N then
        match r0 with
        | b1 :: r1 =>
            if cont b1
            then (((b0 - 192) * 64 + (b1 - 128))%N ::.) <$> utf8_decode r1
            else None
        | _ => None
        end
      else if (b0 <? 240)%N then
        match r0 with
        | b1 :: b2 :: r2 =>
            if cont b1 && cont b2 &&
               (if (b0 =? 224)%N then (160 <=? b1)%N else true) &&
               (if (b0 =? 237)%N then (b1 <? 160)%N else true)
            then (((b0 - 224) * 4096 + (b1 - 128) * 64 + (b2 - 128))%N ::.)
                   <$> utf8_decode r2
            else None
        | _ => None
        end
      else if (b0 <? 245)%N then
        match r0 with
        | b1 :: b2 :: b3 :: r3 =>
            if cont b1 && cont b2 && cont b3 &&
               (if (b0 =? 240)%N then (144 <=? b1)%N else true) &&
               (if (b0 =? 244)%N then (b1 <? 144)%N else true)
            then (((b0 - 240) * 262144 + (b1 - 128) * 4096
                   + (b2 - 128) * 64 + (b3 - 128))%N ::.)
                   <$> utf8_decode r3
            else None
        | _ => None
        end
      else None
  end.

Definition utf8_encode_point (c : N) : option (list N) :=
  (if c <? 128 then Some [c]
   else if c <? 2048 then Some [192 + c / 64; 128 + c mod 64]
   else if (55296 <=? c) && (c <=? 57343) then None
   else if c <? 65536 then
     Some [224 + c / 4096; 128 + (c / 64) mod 64; 128 + c mod 64]
   else if c <? 1114112 then
     Some [240 + c / 262144; 128 + (c / 4096) mod 64;
           128 + (c / 64) mod 64; 128 + c mod 64]
   else None)%N.

Fixpoint utf8_encode (t : Py.text) : option (list N) :=
  match t with
  | [] => Some []
  | c :: t' =>
      match utf8_encode_point c, utf8_encode t' with
      | Some bs, Some bs' => Some (bs ++ bs')%list
      | _, _ => None
      end
  end.

(** The codec [utf-8], the default of [add_text_to_file]. *)
Definition utf_8 (m : wording) : codec :=
  mkCodec
    (λ b, match utf8_decode (bytes_of b) with
          | Some t => inl t
          | None => inr (cannot_decode m b)
          end)
    (λ t, match utf8_encode t with
          | Some bs => inl (string_of_bytes bs)
          | None => inr (cannot_encode m t)
          end).

(** The codec [latin-1]: a byte is its code point. *)
Definition latin_1 (m : wording) : codec :=
  mkCodec
    (λ b, inl (bytes_of b))
    (λ t, if forallb (λ c, c <? 256)%N t then inl (string_of_bytes t)
          else inr (cannot_encode m t)).

End Codecs.

Inductive level := INFO | ERROR.

(** Regular text files by path, the wall clock read by [datetime.now()], the
    draws [random] will hand out, and the records passed to [logging]. The
    only I/O failure modelled is a missing file. *)
Record World := mkWorld {
  fs : gmap string string;
  now : Py.datetime;
  rand : list nat;
  log : list (level * string)
}.

(** Computations over the world that return or raise. *)
Definition M (A : Type) : Type := World → (A + exn) * World.

Definition ret {A} (a : A) : M A := λ w, (inl a, w).
Definition raise {A} (e : exn) : M A := λ w, (inr e, w).
Definition bind {A B} (m : M A) (k : A → M B) : M B :=
  λ w, match m w with
       | (inl a, w') => k a w'
       | (inr e, w') => (inr e, w')
       end.

(** [try: body except Exception as e: handler(e)]: an exception that is not
    of class [Exception] goes on to the caller. *)
Definition try_except {A} (body : M A) (handler : exn → M A) : M A :=
  λ w, match body w with
       | (inl a, w') => (inl a, w')
       | (inr e, w') => if is_Exception e then handler e w' else (inr e, w')
       end.

Declare Scope m_scope.
Delimit Scope m_scope with M.
Notation "'let*' x := m 'in' k" := (bind m (λ x, k))
  (at level 10, x name, m at level 100, k at level 200) : m_scope.
Notation "m1 >> m2" := (bind m1 (λ _, m2))
  (at level 100, right associativity) : m_scope.

Definition set_fs (f : gmap string string) (w : World) : World :=
  mkWorld f (now w) (rand w) (log w).
Definition set_rand (r : list nat) (w : World) : World :=
  mkWorld (fs w) (now w) r (log w).
Definition add_log (l : level) (msg : string) (w : World) : World :=
  mkWorld (fs w) (now w) (rand w) (log w ++ [(l, msg)]).

Definition logging_info (msg : string) : M unit := λ w, (inl tt, add_log INFO msg w).
Definition logging_error (msg : string) : M unit := λ w, (inl tt, add_log ERROR msg w).

Definition datetime_now : M Py.datetime := λ w, (inl (now w), w).

(** [random.randint(lo, hi)], drawn from the world's supply. *)
Definition randint (lo hi : nat) : M nat :=
  λ w, match rand w with
       | [] => (inl lo, w)
       | r :: rs => (inl (lo + r mod (hi - lo + 1)), set_rand rs w)
       end.

(** [open(path, 'rb')] and reading from it: the bytes of the file. *)
Definition read_bytes (path : string) : M string :=
  λ w, match fs w !! path with
       | Some c => (inl c, w)
       | None => (inr (FileNotFoundError path), w)
       end.

(** [with open(path, 'r', encoding=encoding) as f: f.read()]: the file is
    opened, the codec looked up, and the whole content decoded, line ends
    translated. *)
Definition read_text (codecs : Codecs.registry) (path encoding : string)
    : M Py.text :=
  λ w, match fs w !! path with
       | None => (inr (FileNotFoundError path), w)
       | Some b =>
           match codecs encoding with
           | None => (inr (LookupError ("unknown encoding: " +:+ encoding)), w)
           | Some c =>
               match Codecs.decode c b with
               | inl t => (inl (Py.universal_newlines t), w)
               | inr msg => (inr (UnicodeDecodeError msg), w)
               end
           end
       end.

(** [open(path, 'w', encoding=encoding)]: creates the file or truncates it,
    then looks up the codec. *)
Definition open_w (codecs : Codecs.registry) (path encoding : string)
    : M Codecs.codec :=
  λ w, let w' := set_fs (<[path := ""]> (fs w)) w in
       match codecs encoding with
       | Some c => (inl c, w')
       | None => (inr (LookupError ("unknown encoding: " +:+ encoding)), w')
       end.

(** [f.write(data)] on a file opened at [path] with codec [c]; a "\n" is
    written as it is ([os.linesep] of POSIX). Text that does not encode
    raises and nothing of it is written. *)
Definition f_write (c : Codecs.codec) (path : string) (data : Py.text) : M unit :=
  λ w, match Codecs.encode c data with
       | inl b =>
           (inl tt,
            set_fs (<[path := default "" (fs w !! path) +:+ b]> (fs w)) w)
       | inr msg => (inr (UnicodeEncodeError msg), w)
       end.

(** [shutil.copy2(src, dst)] *)
Definition copy2 (src dst : string) : M unit :=
  λ w, match fs w !! src with
       | Some c => (inl tt, set_fs (<[dst := c]> (fs w)) w)
       | None => (inr (FileNotFoundError src), w)
       end.

(** ** FileOperations *)

Module FileOperations.

Import Py.
Open Scope m_scope.

Definition BACKUP_EXTENSION : string := ".bak.cu".

Definition backup_name (file_path timestamp : string) : string :=
  file_path +:+ "_" +:+ timestamp +:+ BACKUP_EXTENSION.

Definition create_backup (file_path : string) : M (option string) :=
  try_except
    (let* d := datetime_now in
     let timestamp := strftime_Ymd_HMS d in
     let backup_path := backup_name file_path timestamp in
     copy2 file_path backup_path >>
     logging_info ("Backup created: " +:+ backup_path) >>
     ret (Some backup_path))
    (λ e,
     logging_error ("Backup failed for " +:+ file_path +:+ ": " +:+ exn_str e) >>
     ret None).

Definition restore_backup (backup_path : string) : M bool :=
  try_except
    (if negb (endswith backup_path BACKUP_EXTENSION) then
       logging_error ("Invalid backup file: " +:+ backup_path) >>
       ret false
     else
       let original_path :=
         slice_to_neg (String.length BACKUP_EXTENSION) backup_path in
       copy2 backup_path original_path >>
       logging_info ("Restored " +:+ original_path +:+ " from backup") >>
       ret true)
    (λ e,
     logging_error ("Restore failed for " +:+ backup_path +:+ ": " +:+ exn_str e) >>
     ret false).

Definition add_text_to_file (codecs : Codecs.registry)
    (file_path : string) (text : Py.text) (position : string)
    (backup : bool) (encoding : string) : M bool :=
  try_except
    ((if backup then create_backup file_path >> ret tt else ret tt) >>
     let* content := read_text codecs file_path encoding in
     let* f := open_w codecs file_path encoding in
     (if String.eqb position "start" then
        f_write f file_path (text ++ [LF] ++ content)%list
      else if String.eqb position "end" then
        f_write f file_path (content ++ [LF] ++ text)%list
      else if String.eqb position "random" then
        let lines := splitlines content in
        let* insert_pos := randint 0 (length lines) in
        f_write f file_path (join [LF] (list_insert_at insert_pos text lines))
      else ret tt) >>
     logging_info ("Text added to " +:+ position +:+ " of " +:+ file_path) >>
     ret true)
    (λ e,
     logging_error ("Error processing " +:+ file_path +:+ ": " +:+ exn_str e) >>
     ret false).

End FileOperations.

Close Scope string_scope.

(** ** FileProcessor

    The pool as an interleaving transition system. A state holds the fields
    of the [FileProcessor] object, the dict objects allocated so far, the
    control point of every worker thread and of every call of a method that
    is under way, and the world the tasks act on. One step is one statement
    of one thread; a [with self.lock:] block is one step, because every
    access to the counters is made under that lock. *)

Module FileProcessor.

Local Open Scope nat_scope.

(** A task as [add_task] stores it: the callable with its arguments bound.
    Calling it acts on the world and returns a value or raises. *)
Definition Task : Type := M Py.value.

Definition task_of_bool (m : M bool) : Task := bind m (λ b, ret (Py.VBool b)).

Definition task_of_path (m : M (option string)) : Task :=
  bind m (λ r, ret (match r with Some p => Py.VStr p | None => Py.VNone end)).

(** What [file_queue] holds: a task, or the [None] that [stop_workers] puts.
    [id] is the ordinal of the task's [put], kept to name the task in
    statements; the program never reads it. *)
Inductive item :=
| QTask (id : nat) (t : Task)
| QNone.

(** The dict [{"total": _, "processed": _, "errors": _}]. *)
Record progress := mkProgress { total : nat; processed : nat; errors : nat }.

Definition zero_progress : progress := mkProgress 0 0 0.
Definition inc_total (p : progress) : progress :=
  mkProgress (S (total p)) (processed p) (errors p).
Definition inc_processed (p : progress) : progress :=
  mkProgress (total p) (S (processed p)) (errors p).
Definition inc_errors (p : progress) : progress :=
  mkProgress (total p) (processed p) (S (errors p)).

(** Control points of a thread running [_worker]. *)
Inductive wpc :=
| WHead                      (* at [while self.running:] *)
| WGet                       (* at [task = self.file_queue.get()] *)
| WRun (id : nat) (t : Task) (* inside the call of [func] *)
| WCount (ok : bool)         (* at [with self.lock:], after the call ([ok]) or in the handler *)
| WFinally                   (* at [self.file_queue.task_done()] *)
| WRaise (e : exn)           (* at [task_done] in [finally], [e] pending: no clause caught it *)
| WExit                      (* [_worker] has returned *)
| WCrashed                   (* [task_done] has raised and the ValueError has left [_worker] *)
| WKilled (e : exn).         (* the task raised [e] and an exception has left [_worker] *)

(** Control points of a call of a public method. *)
Inductive call :=
| CAdd (t : Task)              (* add_task: at [self.file_queue.put(...)] *)
| CAddInc                      (* add_task: at [with self.lock:] *)
| CGet                         (* get_progress *)
| CReset                       (* reset_progress *)
| CStart (n : nat)             (* start_workers(n): at [self.running = True] *)
| CSpawn (k : nat)             (* start_workers: [k] iterations left, at [worker.start()] *)
| CAppend (k : nat) (tid : nat) (* start_workers: at [self.workers.append(worker)] *)
| CStop                        (* stop_workers: at [self.running = False] *)
| CPut (k : nat)               (* stop_workers: [k] iterations of the [put(None)] loop left *)
| CJoin (i : nat)              (* stop_workers: the [join] loop at index [i] *)
| CClear                       (* stop_workers: at [self.workers = []] *)
| CRet (r : option nat).       (* returned; [get_progress] returns a dict reference *)

(** What an observer of the run sees, oldest first. *)
Inductive event :=
| EvStart (id : nat)           (* task [id] was dequeued and its call began *)
| EvDone (id : nat)            (* the call of task [id] returned or raised *)
| EvSentinel.                  (* [stop_workers] put a [None] *)

Record State := mkState {
  file_queue : list item;      (* self.file_queue, head first *)
  unfinished : nat;            (* its count of unfinished tasks *)
  workers : list nat;          (* self.workers: thread handles *)
  running : bool;              (* self.running *)
  heap : list progress;        (* the dict objects allocated so far *)
  progress_ref : nat;          (* self.progress: a reference into [heap] *)
  threads : list wpc;          (* every worker thread ever started *)
  calls : list call;           (* every method call ever made *)
  world : World;
  next_id : nat;               (* number of tasks put so far *)
  events : list event
}.

Definition with_queue (q : list item) (s : State) : State :=
  mkState q (unfinished s) (workers s) (running s) (heap s) (progress_ref s)
    (threads s) (calls s) (world s) (next_id s) (events s).
Definition with_unfinished (u : nat) (s : State) : State :=
  mkState (file_queue s) u (workers s) (running s) (heap s) (progress_ref s)
    (threads s) (calls s) (world s) (next_id s) (events s).
Definition with_workers (ws : list nat) (s : State) : State :=
  mkState (file_queue s) (unfinished s) ws (running s) (heap s) (progress_ref s)
    (threads s) (calls s) (world s) (next_id s) (events s).
Definition with_running (b : bool) (s : State) : State :=
  mkState (file_queue s) (unfinished s) (workers s) b (heap s) (progress_ref s)
    (threads s) (calls s) (world s) (next_id s) (events s).
Definition with_heap (h : list progress) (s : State) : State :=
  mkState (file_queue s) (unfinished s) (workers s) (running s) h (progress_ref s)
    (threads s) (calls s) (world s) (next_id s) (events s).
Definition with_ref (r : nat) (s : State) : State :=
  mkState (file_queue s) (unfinished s) (workers s) (running s) (heap s) r
    (threads s) (calls s) (world s) (next_id s) (events s).
Definition with_threads (ts : list wpc) (s : State) : State :=
  mkState (file_queue s) (unfinished s) (workers s) (running s) (heap s)
    (progress_ref s) ts (calls s) (world s) (next_id s) (events s).
Definition with_calls (cs : list call) (s : State) : State :=
  mkState (file_queue s) (unfinished s) (workers s) (running s) (heap s)
    (progress_ref s) (threads s) cs (world s) (next_id s) (events s).
Definition with_world (w : World) (s : State) : State :=
  mkState (file_queue s) (unfinished s) (workers s) (running s) (heap s)
    (progress_ref s) (threads s) (calls s) w (next_id s) (events s).
Definition with_next_id (n : nat) (s : State) : State :=
  mkState (file_queue s) (unfinished s) (workers s) (running s) (heap s)
    (progress_ref s) (threads s) (calls s) (world s) n (events s).
Definition add_event (e : event) (s : State) : State :=
  mkState (file_queue s) (unfinished s) (workers s) (running s) (heap s)
    (progress_ref s) (threads s) (calls s) (world s) (next_id s) (events s ++ [e]).

Definition set_thread (i : nat) (pc : wpc) (s : State) : State :=
  with_threads (<[i := pc]> (threads s)) s.
Definition set_call (j : nat) (c : call) (s : State) : State :=
  with_calls (<[j := c]> (calls s)) s.

(** [__init__] *)
Definition init (w : World) : State :=
  mkState [] 0 [] false [zero_progress] 0 [] [] w 0 [].

(** The dict [self.progress] refers to. *)
Definition counters (s : State) : progress :=
  default zero_progress (heap s !! progress_ref s).

(** [self.progress[key] += 1]: updates the dict in place. *)
Definition update_progress (f : progress → progress) (s : State) : State :=
  with_heap (alter f (progress_ref s) (heap s)) s.

(** [self.file_queue.put(x)] *)
Definition put (x : item) (s : State) : State :=
  with_unfinished (S (unfinished s)) (with_queue (file_queue s ++ [x]) s).

(** A thread that is no longer alive; [join] returns for it. *)
Definition dead (pc : wpc) : bool :=
  match pc with
  | WExit | WCrashed | WKilled _ => true
  | _ => false
  end.

(** One step of worker thread [i]; [None] when it cannot move: it has ended,
    or it waits in [get] on an empty queue. *)
Definition worker_step (i : nat) (s : State) : option State :=
  match threads s !! i with
  | Some WHead =>
      Some (set_thread i (if running s then WGet else WExit) s)
  | Some WGet =>
      match file_queue s with
      | [] => None
      | QNone :: q => Some (set_thread i WExit (with_queue q s))
      | QTask id t :: q =>
          Some (set_thread i (WRun id t) (add_event (EvStart id) (with_queue q s)))
      end
  | Some (WRun id t) =>
      match t (world s) with
      | (inl _, w') =>
          Some (set_thread i (WCount true) (add_event (EvDone id) (with_world w' s)))
      | (inr e, w') =>
          if is_Exception e then
            Some (set_thread i (WCount false)
                    (add_event (EvDone id)
                       (with_world
                          (add_log ERROR ("Error processing task: " +:+ exn_str e)%string w')
                          s)))
          else
            Some (set_thread i (WRaise e) (add_event (EvDone id) (with_world w' s)))
      end
  | Some (WCount ok) =>
      Some (set_thread i WFinally
              (update_progress (if ok then inc_processed else inc_errors) s))
  | Some WFinally =>
      match unfinished s with
      | 0 => Some (set_thread i WCrashed s)
      | S n => Some (set_thread i WHead (with_unfinished n s))
      end
  | Some (WRaise e) =>
      (* [finally] calls [task_done], which takes one off a count above 0;
         on a count of 0 it raises and its ValueError goes on in place of
         [e]: either way an exception leaves [_worker] *)
      Some (set_thread i (WKilled e) (with_unfinished (pred (unfinished s)) s))
  | Some WExit | Some WCrashed | Some (WKilled _) | None => None
  end.

(** One step of method call [j]; [None] when it has returned or waits in
    [join] for a thread that is alive. *)
Definition call_step (j : nat) (s : State) : option State :=
  match calls s !! j with
  | Some (CAdd t) =>
      Some (set_call j CAddInc
              (with_next_id (S (next_id s)) (put (QTask (next_id s) t) s)))
  | Some CAddInc =>
      Some (set_call j (CRet None) (update_progress inc_total s))
  | Some CGet =>
      Some (set_call j (CRet (Some (length (heap s))))
              (with_heap (heap s ++ [counters s]) s))
  | Some CReset =>
      Some (set_call j (CRet None)
              (with_ref (length (heap s)) (with_heap (heap s ++ [zero_progress]) s)))
  | Some (CStart n) =>
      Some (set_call j (CSpawn n) (with_running true s))
  | Some (CSpawn 0) =>
      Some (set_call j (CRet None) s)
  | Some (CSpawn (S k)) =>
      Some (set_call j (CAppend k (length (threads s)))
              (with_threads (threads s ++ [WHead]) s))
  | Some (CAppend k tid) =>
      Some (set_call j (CSpawn k) (with_workers (workers s ++ [tid]) s))
  | Some CStop =>
      Some (set_call j (CPut (length (workers s))) (with_running false s))
  | Some (CPut 0) =>
      Some (set_call j (CJoin 0) s)
  | Some (CPut (S k)) =>
      Some (set_call j (CPut k) (add_event EvSentinel (put QNone s)))
  | Some (CJoin i) =>
      match workers s !! i with
      | None => Some (set_call j CClear s)
      | Some tid =>
          match threads s !! tid with
          | Some pc => if dead pc then Some (set_call j (CJoin (S i)) s) else None
          | None => None
          end
      end
  | Some CClear =>
      Some (set_call j (CRet None) (with_workers [] s))
  | Some (CRet _) | None => None
  end.

(** The control points at which a method is entered. *)
Definition is_entry (c : call) : bool :=
  match c with
  | CAdd _ | CGet | CReset | CStart _ | CStop => true
  | _ => false
  end.

(** Who moves: some thread enters a method, a call under way takes a step,
    or a worker takes a step. *)
Inductive label :=
| Invoke (c : call)
| CallStep (j : nat)
| WorkStep (i : nat).

Definition step (l : label) (s : State) : option State :=
  match l with
  | Invoke c => if is_entry c then Some (with_calls (calls s ++ [c]) s) else None
  | CallStep j => call_step j s
  | WorkStep i => worker_step i s
  end.

Fixpoint run (ls : list label) (s : State) : option State :=
  match ls with
  | [] => Some s
  | l :: ls' =>
      match step l s with
      | Some s' => run ls' s'
      | None => None
      end
  end.

(** Whether calling the task in world [w] returns (with whatever value)
    rather than raises. *)
Definition outcome_ok (t : Task) (w : World) : bool :=
  match (t w).1 with
  | inl _ => true
  | inr _ => false
  end.

(** Whether it raises an exception that [except Exception] does not
    catch. *)
Definition escapes (t : Task) (w : World) : bool :=
  match (t w).1 with
  | inl _ => false
  | inr e => negb (is_Exception e)
  end.


(** *** Quantities of a state *)

Definition sum_over {A} (f : A → nat) (l : list A) : nat := sum_list (f <$> l).

Definition is_task (x : item) : nat :=
  match x with QTask _ _ => 1 | QNone => 0 end.

(** Tasks waiting in the queue. *)
Definition queued (s : State) : nat := sum_over is_task (file_queue s).

Definition task_ids (q : list item) : list nat :=
  omap (λ x, match x with QTask id _ => Some id | QNone => None end) q.

(** A worker that has dequeued a task and not yet counted it. *)
Definition is_holding (pc : wpc) : nat :=
  match pc with WRun _ _ | WCount _ => 1 | _ => 0 end.
Definition holding (s : State) : nat := sum_over is_holding (threads s).


(** A worker at [get]. *)
Definition is_getting (pc : wpc) : nat :=
  match pc with WGet => 1 | _ => 0 end.
Definition getting (s : State) : nat := sum_over is_getting (threads s).

(** A worker whose task raised outside class [Exception]: the task is in
    neither counter. *)
Definition is_escaped (pc : wpc) : nat :=
  match pc with WRaise _ | WKilled _ => 1 | _ => 0 end.
Definition escaped (s : State) : nat := sum_over is_escaped (threads s).


Definition is_alive (pc : wpc) : nat := if dead pc then 0 else 1.
Definition alive (s : State) : nat := sum_over is_alive (threads s).

(** An [add_task] call that has not yet put its task, and one that has put
    it and not yet counted it in [total]. *)
Definition is_pend_put (c : call) : nat :=
  match c with CAdd _ => 1 | _ => 0 end.
Definition is_pend_inc (c : call) : nat :=
  match c with CAddInc => 1 | _ => 0 end.
Definition is_pend_reset (c : call) : nat :=
  match c with CReset => 1 | _ => 0 end.
Definition pend_put (s : State) : nat := sum_over is_pend_put (calls s).
Definition pend_reset (s : State) : nat := sum_over is_pend_reset (calls s).
Definition pend_inc (s : State) : nat := sum_over is_pend_inc (calls s).

Definition is_returned (c : call) : bool :=
  match c with CRet _ => true | _ => false end.

(** How many [add_task] and [reset_progress] calls a schedule makes. *)
Definition is_add (l : label) : nat :=
  match l with Invoke (CAdd _) => 1 | _ => 0 end.
Definition adds (ls : list label) : nat := sum_over is_add ls.

Definition is_reset (l : label) : bool :=
  match l with Invoke CReset => true | _ => false end.
Definition no_reset (ls : list label) : Prop := forallb (λ l, negb (is_reset l)) ls = true.

Definition start_ids (evs : list event) : list nat :=
  omap (λ e, match e with EvStart id => Some id | _ => None end) evs.


(** [x] occurs, and later [y] occurs. *)
Definition before (x y : event) (evs : list event) : Prop :=
  ∃ l1 l2 l3, evs = l1 ++ x :: l2 ++ y :: l3.

(** *** Conditions on states *)


(** The tasks counted, held by a worker or waiting are among the tasks put;
    [total] lags by the [add_task] calls between their two statements. A
    task whose call raised outside class [Exception] is in none of the
    three. *)
Definition balanced (s : State) : Prop :=
  processed (counters s) + errors (counters s) + holding s + queued s
  ≤ total (counters s) + pend_inc s.

(** The counters account for the tasks, and no [reset_progress] call is
    under way. *)
Definition accounted (s : State) : Prop :=
  progress_ref s < length (heap s) ∧ pend_reset s = 0 ∧ balanced s.

(** A pool whose counters were reset with nothing outstanding. *)
Definition freshly_reset (s : State) : Prop :=
  progress_ref s < length (heap s) ∧
  counters s = zero_progress ∧
  queued s = 0 ∧ holding s = 0 ∧
  pend_put s = 0 ∧ pend_inc s = 0 ∧ pend_reset s = 0.


(** [l] refers to a dict with content [p] that is not the pool's own. *)
Definition handed_out (l : nat) (p : progress) (s : State) : Prop :=
  l ≠ progress_ref s ∧ heap s !! l = Some p.

(** *** Order of execution *)

(** Some worker is inside task [a]. *)
Definition in_flight (a : nat) (s : State) : Prop :=
  ∃ i t, threads s !! i = Some (WRun a t).

(** The tasks dequeued so far, in the order they were dequeued, and then
    the tasks waiting, head first, are the tasks in the order of their
    [put]. *)
Definition fifo (s : State) : Prop :=
  start_ids (events s) ++ task_ids (file_queue s) = seq 0 (next_id s).

(** Every task that was started has ended or is in flight. *)
Definition started_accounted (s : State) : Prop :=
  ∀ a, EvStart a ∈ events s → EvDone a ∈ events s ∨ in_flight a s.

(** A task put earlier has ended before a task put later starts. *)
Definition in_order (s : State) : Prop :=
  ∀ a b, a < b → EvStart b ∈ events s →
    before (EvDone a) (EvStart b) (events s).

(** *** [stop_workers] seen from its caller *)

Definition is_invoke (l : label) : bool :=
  match l with Invoke _ => true | _ => false end.










(** *** One caller *)

(** No call is under way. *)
Definition idle (s : State) : bool := forallb is_returned (calls s).

(** A schedule in which the methods are called from one thread: a method is
    entered only when no call is under way. Workers move as they like. *)
Fixpoint run_one_caller (ls : list label) (s : State) : option State :=
  match ls with
  | [] => Some s
  | l :: ls' =>
      if is_invoke l && negb (idle s) then None
      else match step l s with
           | Some s' => run_one_caller ls' s'
           | None => None
           end
  end.




End FileProcessor.

(** ** Concrete worlds, tasks and schedules *)

Module Scenario.

Import Py FileOperations FileProcessor.
Local Open Scope string_scope.

(** One text file, at noon on 1 January 2024. *)
Definition w0 : World :=
  mkWorld {[ "a.txt" := "C" ]} (Datetime 2024 1 1 12 0 0) [] [].

Definition backup_of_a : string := "a.txt_20240101_120000.bak.cu".

(** [restore_backup] bound to a path without the backup suffix: it returns
    [False]. *)
Definition task_bad_restore : Task := task_of_bool (restore_backup "a.txt").

(** [create_backup] bound to the file: it returns the backup's path. *)
Definition task_backup : Task := task_of_path (create_backup "a.txt").

(** A callable that raises. *)
Definition task_raise : Task := raise (RuntimeError "boom").

(** [start_workers(1)] as call [j], run to its return. *)
Definition start_one (j : nat) : list label :=
  [Invoke (CStart 1); CallStep j; CallStep j; CallStep j; CallStep j].

(** [add_task(t)] as call [j], run to its return. *)
Definition add_one (j : nat) (t : Task) : list label :=
  [Invoke (CAdd t); CallStep j; CallStep j].


(** One worker runs a task that returns [False] to its end. *)
Definition run_falsy : list label :=
  start_one 0 ++ add_one 1 task_bad_restore ++
  [WorkStep 0; WorkStep 0; WorkStep 0; WorkStep 0; WorkStep 0].

(** One worker runs a task that raises, then one that returns. *)
Definition run_raise_then_ok : list label :=
  start_one 0 ++ add_one 1 task_raise ++ add_one 2 task_backup ++
  [WorkStep 0; WorkStep 0; WorkStep 0; WorkStep 0; WorkStep 0;
   WorkStep 0; WorkStep 0; WorkStep 0; WorkStep 0; WorkStep 0].

(** A worker finishes a task between the two statements of [add_task], and
    another thread calls [get_progress] there. *)
Definition poll_inside_add : list label :=
  start_one 0 ++
  [Invoke (CAdd task_backup); CallStep 1;
   WorkStep 0; WorkStep 0; WorkStep 0; WorkStep 0;
   Invoke CGet; CallStep 2].

(** One worker has dequeued a task that raises and is inside it. *)
Definition reach_raising : list label :=
  start_one 0 ++ add_one 1 task_raise ++ [WorkStep 0; WorkStep 0].

(** A pool whose only worker is inside a task: one that returns [False], and
    one that raises. *)
Definition in_falsy_task : State :=
  with_threads [WRun 0 task_bad_restore] (init w0).
Definition in_raising_task : State :=
  with_threads [WRun 0 task_raise] (init w0).








End Scenario.

(** ** What a computation raises and which files it touches *)

Module Effects.

(** What the computation raises is of class [Exception]. *)
Definition only_Exception {A} (m : M A) : Prop :=
  ∀ w e w', m w = (inr e, w') → is_Exception e = true.


End Effects.

(** ** More of the pool: quantities and conditions used below *)

Module PoolMore.

Import FileProcessor.
Local Open Scope nat_scope.

(** The [None]s waiting in the queue. *)
Definition is_none (x : item) : nat :=
  match x with QNone => 1 | QTask _ _ => 0 end.
Definition nones (s : State) : nat := sum_over is_none (file_queue s).

(** The schedule of a call that runs [n] of its steps with nothing in
    between. *)
Definition alone (j n : nat) : list label := replicate n (CallStep j).

(** A schedule made of steps of calls under way and of workers only. *)
Definition no_invoke (ls : list label) : Prop :=
  forallb (λ l, negb (is_invoke l)) ls = true.

(** The sentinels [stop_workers] still has to put at a control point;
    [None] outside [stop_workers]. *)
Definition puts_left (c : call) : option nat :=
  match c with
  | CPut k => Some k
  | CJoin _ | CClear | CRet None => Some 0
  | _ => None
  end.

(** [stop_workers], as call [j], is past [self.running = False] and is the
    only call under way; of the sentinels it has put or will put, at most as
    many have been taken as workers were waiting in [get] when it cleared the
    flag, in state [s1] with [k1] sentinels to put. *)
Definition stop_rest (j k1 : nat) (s1 s : State) : Prop :=
  running s = false ∧
  (∀ j' c, j' ≠ j → calls s !! j' = Some c → is_returned c = true) ∧
  ∃ c k, calls s !! j = Some c ∧ puts_left c = Some k ∧
    nones s1 + k1 + getting s ≤ nones s + k + getting s1.

(** The counters dict is allocated and no [reset_progress] call is under
    way. *)
Definition steady (s : State) : Prop :=
  progress_ref s < length (heap s) ∧ pend_reset s = 0.

(** Tasks dequeued or waiting that the counters have not yet counted. *)
Definition outstanding (s : State) : nat := holding s + queued s.

(** The steps that enter [start_workers], and the control points inside
    it. *)
Definition is_start (l : label) : bool :=
  match l with Invoke (CStart _) => true | _ => false end.
Definition no_start (ls : list label) : Prop :=
  forallb (λ l, negb (is_start l)) ls = true.
Definition is_starting (c : call) : nat :=
  match c with CStart _ | CSpawn _ | CAppend _ _ => 1 | _ => 0 end.

(** No worker thread is alive and no [start_workers] call is under way. *)
Definition unmanned (s : State) : Prop :=
  (∀ i pc, threads s !! i = Some pc → dead pc = true) ∧
  sum_over is_starting (calls s) = 0.

(** Calling the task returns in every world. *)
Definition never_raises (t : Task) : Prop := ∀ w, outcome_ok t w = true.

(** The tasks the window hands to [add_task] in [process_files] and
    [restore_backups], and [create_backup] bound to a path. *)
Inductive file_task : Task → Prop :=
| ft_add_text (codecs : Codecs.registry) (file_path : string) (text : Py.text)
    (position : string) (backup : bool) (encoding : string) :
    file_task (task_of_bool
      (FileOperations.add_text_to_file codecs file_path text position backup
         encoding))
| ft_restore (backup_path : string) :
    file_task (task_of_bool (FileOperations.restore_backup backup_path))
| ft_backup (file_path : string) :
    file_task (task_of_path (FileOperations.create_backup file_path)).

(** The [add_task] calls of a schedule pass tasks that satisfy [P]. *)
Definition adds_satisfy (P : Task → Prop) (ls : list label) : Prop :=
  Forall (λ l, ∀ t, l = Invoke (CAdd t) → P t) ls.

(** No worker is in the handler of [_worker], and every task a thread is
    in, the queue holds or an [add_task] call is about to put returns. *)
Definition thread_returns (pc : wpc) : Prop :=
  match pc with
  | WCount false | WRaise _ | WKilled _ => False
  | WRun _ t => never_raises t
  | _ => True
  end.
Definition item_returns (x : item) : Prop :=
  match x with QTask _ t => never_raises t | QNone => True end.
Definition call_returns (c : call) : Prop :=
  match c with CAdd t => never_raises t | _ => True end.

Definition no_failure (s : State) : Prop :=
  progress_ref s < length (heap s) ∧
  errors (counters s) = 0 ∧
  Forall thread_returns (threads s) ∧
  Forall item_returns (file_queue s) ∧
  Forall call_returns (calls s).

End PoolMore.

(** ** hashlib and the checksum *)

Module Hashlib.

(** A hash algorithm as [hashlib] offers it: the constructor gives a hash
    object, [update] feeds it bytes, [hexdigest()] reads the digest, or
    raises a [TypeError] with the message given, as for the algorithms
    whose digest needs a length. *)
Record algorithm := mkAlgorithm {
  hstate : Type;
  h_new : hstate;
  h_update : hstate → string → hstate;
  h_hexdigest : hstate → string + string
}.

(** What Python's documentation states of every hash object: repeated calls
    of [update] are equivalent to a single call with the concatenation of
    the arguments. *)
Definition streaming (a : algorithm) : Prop :=
  (∀ h : hstate a, h_update a h "" = h) ∧
  (∀ (h : hstate a) (x y : string),
     h_update a (h_update a h x) y = h_update a h (x +:+ y)).

(** What [getattr(hashlib, name)()] does for a name: there is no such
    attribute; the attribute cannot be called without an argument (a
    [TypeError] with the text given, as for [new] or
    [algorithms_available]); the call gives a hash object; or the call
    gives an object of another kind (as for [__dir__]), on which [update]
    and [hexdigest] raise an exception of class [Exception] with the texts
    given. *)
Inductive attribute :=
| Missing
| NotCallable (msg : string)
| Hash (a : algorithm)
| NoHash (on_update on_hexdigest : string).

Definition module : Type := string → attribute.

End Hashlib.

Module Checksum.

Import Py Hashlib.
Local Open Scope string_scope.
Local Open Scope m_scope.

(** [open(path, 'rb')]: the content as bytes. *)
Definition open_rb (path : string) : M string := read_bytes path.

(** [for chunk in iter(lambda: f.read(4096), b""): hash_func.update(chunk)]
    on a file whose bytes from the read position on are [rest]. Every round
    but the last consumes at least one byte, so [fuel] above the length of
    [rest] is never used up. *)
Fixpoint read_chunks (a : algorithm) (fuel : nat) (h : hstate a) (rest : string)
    : hstate a :=
  match fuel with
  | 0 => h
  | S fuel' =>
      let chunk := substring 0 4096 rest in
      if String.eqb chunk "" then h
      else read_chunks a fuel' (h_update a h chunk)
             (substring 4096 (String.length rest - 4096) rest)
  end.

(** The hash object after the loop over a file of content [content]. *)
Definition fed (a : algorithm) (content : string) : hstate a :=
  read_chunks a (S (String.length content)) (h_new a) content.

(** [FileOperations.calculate_checksum] *)
Definition calculate_checksum (hashlib : module) (file_path algorithm : string)
    : M (option string) :=
  try_except
    (match hashlib algorithm with
     | Missing =>
         raise (AttributeError
                  ("module 'hashlib' has no attribute '" +:+ algorithm +:+ "'"))
     | NotCallable msg => raise (TypeError msg)
     | Hash a =>
         let* content := open_rb file_path in
         match h_hexdigest a (fed a content) with
         | inl digest => ret (Some digest)
         | inr msg => raise (TypeError msg)
         end
     | NoHash on_update on_hexdigest =>
         let* content := open_rb file_path in
         if String.eqb content "" then raise (AttributeError on_hexdigest)
         else raise (AttributeError on_update)
     end)
    (λ e,
     logging_error ("Error calculating checksum for " +:+ file_path +:+ ": " +:+
                    exn_str e) >>
     ret None).

End Checksum.

(** ** os *)

Module Os.

(** [os.path.getsize(path)]: the number of bytes. *)
Definition path_getsize (path : string) : M nat :=
  λ w, match fs w !! path with
       | Some c => (inl (String.length c), w)
       | None => (inr (FileNotFoundError path), w)
       end.

(** [os.remove(path)] *)
Definition remove (path : string) : M unit :=
  λ w, match fs w !! path with
       | Some _ => (inl tt, set_fs (delete path (fs w)) w)
       | None => (inr (FileNotFoundError path), w)
       end.

End Os.

(** ** The window's handlers

    What the handlers of [ModernUI] compute, without the widgets. A handler
    that walks a folder is given the paths [os.path.join(root, filename)] in
    the order in which the two nested loops over [os.walk(folder)] visit
    them. *)

Module ModernUI.

Import Py Checksum.
Local Open Scope string_scope.
Local Open Scope m_scope.

(** [browse_folder]: [folder] is what the dialog returned, the empty string
    when it was cancelled; the result is [self.config["recent_folders"]]
    afterwards. *)
Definition browse_folder (folder : string) (recent_folders : list string)
    : list string :=
  if negb (String.eqb folder "") then
    if negb (bool_decide (folder ∈ recent_folders)) then
      take 5 (folder :: recent_folders)
    else recent_folders
  else recent_folders.

(** [delete_empty_files]: the loop, with the count so far. The size is read
    outside the [try]. *)
Fixpoint delete_empty_files_loop (paths : list string) (deleted : nat) : M nat :=
  match paths with
  | [] => ret deleted
  | file_path :: rest =>
      let* size := Os.path_getsize file_path in
      let* deleted' :=
        (if (size =? 0)%nat then
           try_except
             (Os.remove file_path >> ret (S deleted))
             (λ e,
              logging_error ("Error deleting " +:+ file_path +:+ ": " +:+
                             exn_str e) >>
              ret deleted)
         else ret deleted) in
      delete_empty_files_loop rest deleted'
  end.

Definition delete_empty_files (paths : list string) : M nat :=
  delete_empty_files_loop paths 0.

(** [find_duplicates]: the loop over the files with the dict [hashes] and
    the list [duplicates]; a checksum is a string or [None]. The result is
    the list of pairs the dialog shows. *)
Fixpoint find_duplicates_loop (hashlib : Hashlib.module) (paths : list string)
    (hashes : gmap (option string) string) (duplicates : list (string * string))
    : M (list (string * string)) :=
  match paths with
  | [] => ret duplicates
  | file_path :: rest =>
      let* r :=
        try_except
          (let* file_hash := calculate_checksum hashlib file_path "md5" in
           match hashes !! file_hash with
           | Some original => ret (hashes, (duplicates ++ [(file_path, original)])%list)
           | None => ret (<[file_hash := file_path]> hashes, duplicates)
           end)
          (λ e,
           logging_error ("Error processing " +:+ file_path +:+ ": " +:+
                          exn_str e) >>
           ret (hashes, duplicates)) in
      find_duplicates_loop hashlib rest r.1 r.2
  end.

Definition find_duplicates (hashlib : Hashlib.module) (paths : list string)
    : M (list (string * string)) :=
  find_duplicates_loop hashlib paths ∅ [].

End ModernUI.

(** ** What [find_duplicates] is to report *)

Module Duplicates.

Local Open Scope nat_scope.

(** The checksum [find_duplicates] gets for a path in world [w]. *)
Definition md5_of (hashlib : Hashlib.module) (w : World) (p : string)
    : option string :=
  match (Checksum.calculate_checksum hashlib p "md5" w).1 with
  | inl r => r
  | inr _ => None
  end.

(** [o] is at position [i] of [paths] and is the first file there whose
    checksum is [h]. *)
Definition first_at (key : string → option string) (paths : list string)
    (i : nat) (h : option string) (o : string) : Prop :=
  paths !! i = Some o ∧ key o = h ∧
  ∀ j q, j < i → paths !! j = Some q → key q ≠ h.

(** [d] is at some position of [paths], and [o] is the first file with the
    checksum of [d], at an earlier position. *)
Definition repeats (key : string → option string) (paths : list string)
    (d o : string) : Prop :=
  ∃ k i, paths !! k = Some d ∧ i < k ∧ first_at key paths i (key d) o.

End Duplicates.

(** ** More concrete inputs *)

Module MoreScenario.

Import Hashlib.
Local Open Scope string_scope.

(** A hash object that keeps the bytes it was fed. *)
Definition keep_all : algorithm := mkAlgorithm string "" String.append inl.

(** A hash object whose digest needs a length, as [shake_128]. *)
Definition needs_length : algorithm :=
  mkAlgorithm string "" String.append
    (λ _, inr "hexdigest() missing required argument 'length' (pos 1)").

(** A module that offers the first as [md5] and the second as [shake_128],
    with [new] and [__dir__] beside them. *)
Definition only_md5 : module :=
  λ name, if String.eqb name "md5" then Hash keep_all
          else if String.eqb name "shake_128" then Hash needs_length
          else if String.eqb name "new" then
            NotCallable "new() missing 1 required positional argument: 'name'"
          else if String.eqb name "__dir__" then
            NoHash "'list' object has no attribute 'update'"
                   "'list' object has no attribute 'hexdigest'"
          else Missing.

(** The codecs [utf-8] and [latin-1]. *)
Definition codecs0 (m : Codecs.wording) : Codecs.registry :=
  λ name, if String.eqb name "utf-8" then Some (Codecs.utf_8 m)
          else if String.eqb name "latin-1" then Some (Codecs.latin_1 m)
          else None.

(** A wording of the codec errors for the runs below; no statement depends
    on it. *)
Definition plain : Codecs.wording :=
  Codecs.mkWording (λ _, "undecodable bytes") (λ _, "unencodable text").


(** Two files of equal content, one other file and an empty file. *)
Definition w_files : World :=
  mkWorld {[ "a" := "same"; "b" := "other"; "c" := "same"; "e" := "" ]}
    (Py.Datetime 2024 1 1 12 0 0) [] [].

End MoreScenario.
(** ** Facts about the string primitives *)

Section StringFacts.

Import Py.
Local Open Scope string_scope.

Lemma app_nil_s (b : string) : "" +:+ b = b.
Proof. reflexivity. Qed.

Lemma app_cons_s (c : ascii) (a b : string) :
  String c a +:+ b = String c (a +:+ b).
Proof. reflexivity. Qed.

Lemma str_length_app (a b : string) :
  String.length (a +:+ b) = (String.length a + String.length b)%nat.
Proof.
  induction a as [|c a IH]; [done|].
  rewrite app_cons_s. simpl. by rewrite IH.
Qed.

Lemma substring_whole (b : string) : substring 0 (String.length b) b = b.
Proof. induction b as [|c b IH]; simpl; [done | by rewrite IH]. Qed.

Lemma substring_app_r (a b : string) :
  substring (String.length a) (String.length b) (a +:+ b) = b.
Proof.
  induction a as [|c a IH]; [apply substring_whole|].
  rewrite app_cons_s. simpl. exact IH.
Qed.

Lemma substring_app_l (a b : string) :
  substring 0 (String.length a) (a +:+ b) = a.
Proof.
  induction a as [|c a IH]; [rewrite app_nil_s; by destruct b|].
  rewrite app_cons_s. simpl. by rewrite IH.
Qed.

Lemma app_assoc_s (a b c : string) : (a +:+ b) +:+ c = a +:+ (b +:+ c).
Proof.
  induction a as [|x a IH]; [done|].
  rewrite !app_cons_s. by rewrite IH.
Qed.

Lemma endswith_app (a b : string) : endswith (a +:+ b) b = true.
Proof.
  unfold endswith. rewrite str_length_app.
  rewrite bool_decide_eq_true_2 by lia. simpl.
  replace (String.length a + String.length b - String.length b)%nat
    with (String.length a) by lia.
  rewrite substring_app_r. apply String.eqb_refl.
Qed.

Lemma slice_to_neg_app (a b : string) :
  b ≠ "" → slice_to_neg (String.length b) (a +:+ b) = a.
Proof.
  intros Hb. unfold slice_to_neg.
  destruct (String.length b) as [|n] eqn:Hn.
  { destruct b; [done | discriminate]. }
  rewrite str_length_app, Hn.
  replace (String.length a + S n - S n)%nat with (String.length a) by lia.
  apply substring_app_l.
Qed.

Lemma app_ne_self (a b : string) : b ≠ "" → a +:+ b ≠ a.
Proof.
  intros Hb Heq. apply (f_equal String.length) in Heq.
  rewrite str_length_app in Heq. destruct b; [done | simpl in Heq; lia].
Qed.

End StringFacts.

(** ** The file operations *)

Section FileOperationFacts.

Import Py FileOperations.
Local Open Scope string_scope.

Lemma backup_name_split (p ts : string) :
  backup_name p ts = (p +:+ "_" +:+ ts) +:+ BACKUP_EXTENSION.
Proof. unfold backup_name. by rewrite !app_assoc_s. Qed.

(** What [restore_backup] takes for the original of a backup that
    [create_backup] named: the path with the timestamp still attached. *)
Lemma restore_target_of_backup (p ts : string) :
  slice_to_neg (String.length BACKUP_EXTENSION) (backup_name p ts)
  = p +:+ "_" +:+ ts.
Proof. rewrite backup_name_split. by apply slice_to_neg_app. Qed.

Lemma restore_target_not_original (p ts : string) :
  slice_to_neg (String.length BACKUP_EXTENSION) (backup_name p ts) ≠ p.
Proof. rewrite restore_target_of_backup. by apply app_ne_self. Qed.

Lemma create_backup_ok (p c : string) (w : World) :
  fs w !! p = Some c →
  let bp := backup_name p (strftime_Ymd_HMS (now w)) in
  create_backup p w =
    (inl (Some bp),
     add_log INFO ("Backup created: " +:+ bp) (set_fs (<[bp := c]> (fs w)) w)).
Proof.
  intros Hp. unfold create_backup, try_except, bind, datetime_now, copy2.
  by rewrite Hp.
Qed.

Lemma create_backup_keeps (p c : string) (w : World) :
  fs w !! p = Some c → fs (create_backup p w).2 !! p = Some c.
Proof.
  intros Hp. rewrite (create_backup_ok p c w Hp). simpl.
  destruct (decide (backup_name p (strftime_Ymd_HMS (now w)) = p)) as [->|Hne].
  - by rewrite lookup_insert_eq.
  - by rewrite lookup_insert_ne.
Qed.

Lemma create_backup_returns (p : string) (w : World) :
  ∃ r, (create_backup p w).1 = inl r.
Proof.
  unfold create_backup, try_except, bind, datetime_now, copy2.
  destruct (fs w !! p); simpl; eauto.
Qed.

Lemma create_backup_missing (p : string) (w : World) :
  fs w !! p = None →
  create_backup p w =
    (inl None,
     add_log ERROR
       ("Backup failed for " +:+ p +:+ ": " +:+ exn_str (FileNotFoundError p)) w).
Proof.
  intros Hp. unfold create_backup, try_except, bind, datetime_now, copy2.
  by rewrite Hp.
Qed.





(** On a path at which there is no file the read raises: the call returns
    [False] and no file is created or changed. *)
Lemma add_text_missing (codecs : Codecs.registry) (p : string) (x : Py.text)
    (pos : string) (b : bool) (enc : string) (w : World) :
  fs w !! p = None →
  ∃ w', add_text_to_file codecs p x pos b enc w = (inl false, w') ∧ fs w' = fs w.
Proof.
  intros Hp. unfold add_text_to_file, try_except.
  unfold bind at 1. destruct b.
  - unfold bind at 1. rewrite (create_backup_missing p w Hp).
    unfold ret at 1. unfold bind at 1. unfold read_text. cbn [fs add_log].
    rewrite Hp. eexists. split; [reflexivity | done].
  - unfold ret at 1. unfold bind at 1. unfold read_text.
    rewrite Hp. eexists. split; [reflexivity | done].
Qed.

End FileOperationFacts.

Section FileOperationClaims.

Import Py FileOperations Scenario MoreScenario.
Local Open Scope string_scope.

(** C10: [restore_backup] called with a path that does not end in the
    backup suffix ".bak.cu" returns [False] and copies nothing: it only logs
    the invalid path, and the filesystem is as it was. *)
Theorem restore_backup_rejects_other_suffix (backup_path : string) (w : World) :
  endswith backup_path BACKUP_EXTENSION = false →
  restore_backup backup_path w
    = (inl false, add_log ERROR ("Invalid backup file: " +:+ backup_path) w) ∧
  fs (restore_backup backup_path w).2 = fs w.
Proof.
  intros Hsuf. unfold restore_backup, try_except, bind.
  rewrite Hsuf. simpl. done.
Qed.

Lemma restore_backup_rejects_other_suffix_witness :
  endswith "a.txt" BACKUP_EXTENSION = false ∧
  restore_backup "a.txt" w0
    = (inl false, add_log ERROR ("Invalid backup file: " +:+ "a.txt") w0) ∧
  fs (restore_backup "a.txt" w0).2 = fs w0.
Proof.
  split; [reflexivity|].
  apply (restore_backup_rejects_other_suffix "a.txt" w0). reflexivity.
Defined.




(** C1: the file is "a.txt" with content "C" and the clock reads
    2024-01-01 12:00:00. [create_backup] returns
    "a.txt_20240101_120000.bak.cu"; [restore_backup] on that path returns
    [True] and writes "C" to "a.txt_20240101_120000", the backup's name less
    the suffix, which is not "a.txt". When "a.txt" is changed after the
    backup, the restore leaves the changed content in place. *)
Theorem backup_restore_misses_original :
  (create_backup "a.txt" w0).1 = inl (Some backup_of_a) ∧
  (let w1 := (create_backup "a.txt" w0).2 in
   (restore_backup backup_of_a w1).1 = inl true ∧
   fs (restore_backup backup_of_a w1).2 !! "a.txt_20240101_120000" = Some "C" ∧
   slice_to_neg (String.length BACKUP_EXTENSION) backup_of_a ≠ "a.txt") ∧
  (let w1 := (create_backup "a.txt" w0).2 in
   let w2 := (add_text_to_file (codecs0 plain) "a.txt" (text_of "x") "edit"
                false "utf-8" w1).2 in
   fs w2 !! "a.txt" = Some "" ∧
   (restore_backup backup_of_a w2).1 = inl true ∧
   fs (restore_backup backup_of_a w2).2 !! "a.txt" = Some "" ∧
   fs (restore_backup backup_of_a w2).2 !! "a.txt" ≠ Some "C").
Proof.
  split; [reflexivity|]. split.
  - cbv zeta. split; [vm_compute; reflexivity|].
    split; [vm_compute; reflexivity|].
    apply (restore_target_not_original "a.txt" "20240101_120000").
  - cbv zeta. split; [vm_compute; reflexivity|].
    split; [vm_compute; reflexivity|].
    split; [vm_compute; reflexivity|].
    vm_compute. discriminate.
Qed.

End FileOperationClaims.

(** ** The worker pool *)

Module PoolFacts.

Import Py FileProcessor PoolMore.
Local Open Scope nat_scope.

(** *** Sums over the thread and call tables *)

Lemma sum_over_nil {A} (f : A → nat) : sum_over f [] = 0.
Proof. reflexivity. Qed.

Lemma sum_over_cons {A} (f : A → nat) (x : A) (l : list A) :
  sum_over f (x :: l) = f x + sum_over f l.
Proof. reflexivity. Qed.

Lemma sum_over_app {A} (f : A → nat) (l1 l2 : list A) :
  sum_over f (l1 ++ l2) = sum_over f l1 + sum_over f l2.
Proof.
  induction l1 as [|x l1 IH]; [done|].
  rewrite <- app_comm_cons, !sum_over_cons, IH. lia.
Qed.

Lemma sum_over_snoc {A} (f : A → nat) (l : list A) (x : A) :
  sum_over f (l ++ [x]) = sum_over f l + f x.
Proof. rewrite sum_over_app, sum_over_cons, sum_over_nil. lia. Qed.

Lemma sum_over_insert {A} (f : A → nat) (l : list A) (i : nat) (x y : A) :
  l !! i = Some x →
  sum_over f (<[i := y]> l) + f x = sum_over f l + f y.
Proof.
  revert i. induction l as [|a l IH]; intros [|i] Hl; simplify_eq/=.
  - rewrite !sum_over_cons. lia.
  - rewrite !sum_over_cons. specialize (IH i Hl). lia.
Qed.

Lemma sum_over_lookup_le {A} (f : A → nat) (l : list A) (i : nat) (x : A) :
  l !! i = Some x → f x ≤ sum_over f l.
Proof.
  revert i. induction l as [|a l IH]; intros [|i] Hl; simplify_eq/=.
  - rewrite sum_over_cons. lia.
  - rewrite sum_over_cons. specialize (IH i Hl). lia.
Qed.

Lemma sum_over_zero {A} (f : A → nat) (l : list A) :
  sum_over f l = 0 ↔ ∀ i x, l !! i = Some x → f x = 0.
Proof.
  split.
  - intros H0 i x Hl. pose proof (sum_over_lookup_le f l i x Hl). lia.
  - induction l as [|a l IH]; intros Hall; [done|].
    rewrite sum_over_cons. rewrite (Hall 0 a eq_refl).
    rewrite IH; [done|]. intros i x Hl. exact (Hall (S i) x Hl).
Qed.

(** Replaces each sum over an updated table by the sum over the table it
    came from, given the entry that was overwritten. *)
Ltac sum_ins :=
  repeat match goal with
  | H : ?l !! ?i = Some ?x |- context [sum_over ?f (<[?i := ?y]> ?l)] =>
      let E := fresh "E" in
      pose proof (sum_over_insert f l i x y H) as E; simpl in E;
      generalize dependent (sum_over f (<[i := y]> l)); intros
  | |- context [sum_over ?f (?l ++ [?x])] =>
      rewrite (sum_over_snoc f l x); simpl
  end.

(** *** The counters dict *)


Lemma counters_alloc (p : progress) (s : State) :
  progress_ref s < length (heap s) →
  default zero_progress ((heap s ++ [p]) !! progress_ref s) = counters s.
Proof. intros Hr. unfold counters. by rewrite lookup_app_l. Qed.

(** *** Runs *)

Lemma run_app (l1 l2 : list label) (s : State) :
  run (l1 ++ l2) s = run l1 s ≫= run l2.
Proof.
  revert s. induction l1 as [|l l1 IH]; intros s; simpl; [done|].
  destruct (step l s); simpl; [apply IH | done].
Qed.

Lemma run_snoc (ls : list label) (l : label) (s s' : State) :
  run (ls ++ [l]) s = Some s' ↔ ∃ s1, run ls s = Some s1 ∧ step l s1 = Some s'.
Proof.
  rewrite run_app. split.
  - destruct (run ls s) as [s1|]; simpl; [|done].
    destruct (step l s1) eqn:E; [|done]. intros ?; simplify_eq. eauto.
  - intros (s1 & -> & E). simpl. by rewrite E.
Qed.

(** An invariant of the steps allowed by [ok] holds along every run made of
    such steps. *)
Lemma run_invariant (P : State → Prop) (ok : label → bool) :
  (∀ l s s', ok l = true → P s → step l s = Some s' → P s') →
  ∀ ls s s', forallb ok ls = true → P s → run ls s = Some s' → P s'.
Proof.
  intros Hstep ls. induction ls as [|l ls IH]; intros s s' Hok HP Hrun.
  - by simplify_eq/=.
  - simpl in Hok, Hrun. apply andb_prop in Hok as [Hl Hls].
    destruct (step l s) as [s1|] eqn:E; [|done].
    exact (IH s1 s' Hls (Hstep l s s1 Hl HP E) Hrun).
Qed.

Lemma run_invariant_all (P : State → Prop) :
  (∀ l s s', P s → step l s = Some s' → P s') →
  ∀ ls s s', P s → run ls s = Some s' → P s'.
Proof.
  intros Hstep ls s s' HP Hrun.
  apply (run_invariant P (λ _, true)) with ls s; eauto.
  clear. induction ls as [|l ls IH]; simpl; auto.
Qed.

(** Case analysis on the control point that moves. *)
Ltac step_cases H :=
  match type of H with
  | step ?l _ = _ => destruct l as [[]| |]
  end;
  unfold step, call_step, worker_step in H; simpl in H;
  repeat case_match; simplify_eq.

(** Reads the counters through [self.progress], which refers to a dict. *)
Ltac read_counters Hr :=
  let p := fresh "p" in
  let Hp := fresh "Hp" in
  destruct (lookup_lt_is_Some_2 _ _ Hr) as [p Hp];
  unfold counters in *; simpl in *;
  rewrite ?list_lookup_alter_eq, ?lookup_app_l by done;
  rewrite ?list_lookup_middle by done;
  rewrite ?Hp; rewrite ?Hp in *; simpl in *.

(** *** Well-formedness is kept by every step *)




(** *** Accounting of tasks *)

Lemma accounted_init (w : World) : accounted (init w).
Proof.
  split; [simpl; lia|]. split; [reflexivity|].
  unfold balanced, counters, holding, queued, pend_inc, sum_over. simpl. lia.
Qed.

Lemma freshly_reset_accounted (s : State) : freshly_reset s → accounted s.
Proof.
  intros (Hr & Hc & Hq & Hh & Hpp & Hpi & Hpr).
  split; [done|]. split; [done|].
  unfold balanced. rewrite Hc, Hq, Hh, Hpi. simpl. lia.
Qed.

Lemma accounted_step (l : label) (s s' : State) :
  is_reset l = false → accounted s → step l s = Some s' →
  accounted s' ∧
  total (counters s') + pend_put s' + pend_inc s'
  = total (counters s) + pend_put s + pend_inc s + is_add l.
Proof.
  intros Hl (Hr & Hpr & Hb) Hstep.
  unfold accounted, balanced, holding, queued, pend_put, pend_inc, pend_reset in *.
  step_cases Hstep; try discriminate Hl;
    read_counters Hr;
    rewrite ?length_alter, ?length_app, ?length_insert; simpl;
    sum_ins; rewrite ?sum_over_cons in *; simpl in *;
    try (split; [split; [|split]|]; lia).
Qed.

Lemma accounted_run (ls : list label) (s s' : State) :
  no_reset ls → accounted s → run ls s = Some s' →
  accounted s' ∧
  total (counters s') + pend_put s' + pend_inc s'
  = total (counters s) + pend_put s + pend_inc s + adds ls.
Proof.
  unfold no_reset, adds. revert s.
  induction ls as [|l ls IH]; intros s Hnr Hacc Hrun; simpl in *.
  - simplify_eq. rewrite sum_over_nil. split; [done | lia].
  - apply andb_prop in Hnr as [Hl Hls]. apply negb_true_iff in Hl.
    destruct (step l s) as [s1|] eqn:E; [|done].
    destruct (accounted_step l s s1 Hl Hacc E) as [Hacc1 Heq1].
    destruct (IH s1 Hls Hacc1 Hrun) as [Hacc' Heq'].
    split; [done|]. rewrite sum_over_cons. lia.
Qed.

(** In an accounted state the counted tasks never exceed [total] by more
    than the [add_task] calls that are between their two statements. *)
Lemma accounted_bound (s : State) :
  accounted s →
  processed (counters s) + errors (counters s) ≤ total (counters s) + pend_inc s.
Proof. intros (_ & _ & Hb). unfold balanced in Hb. lia. Qed.

(** The exact account: along every step but [reset_progress] the tasks
    counted, outstanding or escaped grow by what [total] and the
    [add_task] calls past their [put] grow, and no counter goes down. *)
Lemma tally_step (l : label) (s s' : State) :
  is_reset l = false → steady s → step l s = Some s' →
  steady s' ∧
  total (counters s') + pend_put s' + pend_inc s'
    = total (counters s) + pend_put s + pend_inc s + is_add l ∧
  processed (counters s') + errors (counters s') + outstanding s' + escaped s'
    + (total (counters s) + pend_inc s)
    = processed (counters s) + errors (counters s) + outstanding s + escaped s
      + (total (counters s') + pend_inc s') ∧
  total (counters s) ≤ total (counters s') ∧
  processed (counters s) ≤ processed (counters s') ∧
  errors (counters s) ≤ errors (counters s').
Proof.
  intros Hl (Hr & Hpr) Hstep.
  unfold steady, outstanding, holding, queued, escaped, pend_put, pend_inc,
    pend_reset in *.
  step_cases Hstep; try discriminate Hl;
    read_counters Hr;
    rewrite ?length_alter, ?length_app, ?length_insert; simpl;
    sum_ins; rewrite ?sum_over_cons in *; simpl in *;
    try (repeat split; lia).
Qed.

Lemma tally_run (ls : list label) (s s' : State) :
  no_reset ls → steady s → run ls s = Some s' →
  steady s' ∧
  total (counters s') + pend_put s' + pend_inc s'
    = total (counters s) + pend_put s + pend_inc s + adds ls ∧
  processed (counters s') + errors (counters s') + outstanding s' + escaped s'
    + (total (counters s) + pend_inc s)
    = processed (counters s) + errors (counters s) + outstanding s + escaped s
      + (total (counters s') + pend_inc s') ∧
  total (counters s) ≤ total (counters s') ∧
  processed (counters s) ≤ processed (counters s') ∧
  errors (counters s) ≤ errors (counters s').
Proof.
  unfold no_reset, adds. revert s.
  induction ls as [|l ls IH]; intros s Hnr Hst Hrun; simpl in *.
  - simplify_eq. rewrite sum_over_nil. repeat split; try lia; apply Hst.
  - apply andb_prop in Hnr as [Hl Hls]. apply negb_true_iff in Hl.
    destruct (step l s) as [s1|] eqn:E; [|done].
    destruct (tally_step l s s1 Hl Hst E) as (Hst1 & H1 & H2 & H3 & H4 & H5).
    destruct (IH s1 Hls Hst1 Hrun) as (Hst' & H1' & H2' & H3' & H4' & H5').
    split; [done|]. rewrite sum_over_cons. repeat split; lia.
Qed.

(** *** Dicts handed out by [get_progress] *)

Lemma handed_out_step (l : nat) (p : progress) (lb : label) (s s' : State) :
  handed_out l p s → step lb s = Some s' → handed_out l p s'.
Proof.
  intros [Hne Hl] Hstep. pose proof (lookup_lt_Some _ _ _ Hl) as Hlt.
  unfold handed_out in *.
  step_cases Hstep; simpl in *;
    rewrite ?list_lookup_alter_ne, ?lookup_app_l by done;
    split; try done; lia.
Qed.

Lemma handed_out_run (l : nat) (p : progress) (ls : list label) (s s' : State) :
  handed_out l p s → run ls s = Some s' → handed_out l p s'.
Proof. apply run_invariant_all. intros lb. apply handed_out_step. Qed.

(** [get_progress] never waits: it allocates a copy of the counters and
    returns the reference to it. *)
Lemma get_progress_step (j : nat) (s : State) :
  progress_ref s < length (heap s) →
  calls s !! j = Some CGet →
  ∃ s', step (CallStep j) s = Some s' ∧
    calls s' !! j = Some (CRet (Some (length (heap s)))) ∧
    counters s' = counters s ∧
    handed_out (length (heap s)) (counters s) s'.
Proof.
  intros Hr Hj. eexists. split.
  { simpl. unfold call_step. rewrite Hj. reflexivity. }
  simpl. split; [|split; [|split]].
  - apply list_lookup_insert_eq. by eapply lookup_lt_Some.
  - unfold counters. simpl. by rewrite lookup_app_l.
  - simpl. lia.
  - simpl. by rewrite list_lookup_middle.
Qed.

(** *** Single steps of a worker *)


(** With an exception pending that no clause caught, [task_done] is called
    and the thread ends. *)
Lemma worker_raise_step (i : nat) (e : exn) (s : State) :
  threads s !! i = Some (WRaise e) →
  ∃ s1, worker_step i s = Some s1 ∧
    threads s1 !! i = Some (WKilled e) ∧
    heap s1 = heap s ∧ progress_ref s1 = progress_ref s ∧
    file_queue s1 = file_queue s.
Proof.
  intros Hi. pose proof (lookup_lt_Some _ _ _ Hi) as Hlt.
  unfold worker_step. rewrite Hi.
  eexists; split; [reflexivity|]. simpl.
  split; [by apply list_lookup_insert_eq | done].
Qed.







(** No step of another thread or of a call moves worker [i]. *)
Lemma others_leave_worker (l : label) (s s' : State) (i : nat) (pc : wpc) :
  step l s = Some s' → l ≠ WorkStep i → threads s !! i = Some pc →
  threads s' !! i = Some pc.
Proof.
  intros Hstep Hl Hi. pose proof (lookup_lt_Some _ _ _ Hi) as Hlt.
  step_cases Hstep; simpl;
    rewrite ?lookup_app_l by done; try done;
    (rewrite list_lookup_insert_ne by congruence); done.
Qed.

(** A worker ends only at the loop head with [self.running] false or by
    taking a [None] from the queue. *)
Lemma worker_exit_cause (l : label) (s s' : State) (i : nat) (pc : wpc) :
  step l s = Some s' → threads s !! i = Some pc → dead pc = false →
  threads s' !! i = Some WExit →
  l = WorkStep i ∧
  ((pc = WHead ∧ running s = false) ∨
   (pc = WGet ∧ ∃ q, file_queue s = QNone :: q)).
Proof.
  intros Hstep Hi Hd Hex.
  assert (l = WorkStep i ∨ l ≠ WorkStep i) as [->|Hne].
  { destruct l as [c|j|k]; [by right | by right |].
    destruct (decide (k = i)) as [->|Hk]; [by left | right; congruence]. }
  - split; [done|]. simpl in Hstep. unfold worker_step in Hstep.
    pose proof (lookup_lt_Some _ _ _ Hi) as Hlt.
    rewrite Hi in Hstep.
    destruct pc; simplify_eq/=;
      repeat case_match; simplify_eq/=;
      rewrite list_lookup_insert_eq in Hex by done; simplify_eq; eauto.
  - rewrite (others_leave_worker l s s' i pc Hstep Hne Hi) in Hex.
    by simplify_eq.
Qed.



(** *** No worker crashes *)



(** *** [add_task] *)



(** *** Order of dequeue and of execution *)

Lemma start_ids_snoc (evs : list event) (e : event) :
  start_ids (evs ++ [e]) =
  start_ids evs ++ match e with EvStart id => [id] | _ => [] end.
Proof. unfold start_ids. rewrite omap_app. by destruct e. Qed.

Lemma task_ids_snoc (q : list item) (x : item) :
  task_ids (q ++ [x]) =
  task_ids q ++ match x with QTask id _ => [id] | QNone => [] end.
Proof. unfold task_ids. rewrite omap_app. by destruct x. Qed.

Lemma start_ids_elem (evs : list event) (a : nat) :
  a ∈ start_ids evs ↔ EvStart a ∈ evs.
Proof.
  unfold start_ids. rewrite list_elem_of_omap. split.
  - intros (e & He & Hs). destruct e; by simplify_eq.
  - intros He. by exists (EvStart a).
Qed.

Lemma fifo_init (w : World) : fifo (init w).
Proof. reflexivity. Qed.

Lemma fifo_step (l : label) (s s' : State) :
  fifo s → step l s = Some s' → fifo s'.
Proof.
  unfold fifo. intros Hf Hstep.
  step_cases Hstep; simpl in *;
    rewrite ?start_ids_snoc, ?task_ids_snoc, ?app_nil_r; simpl;
    try done.
  - change (0 :: seq 1 (next_id s)) with (seq 0 (S (next_id s))).
    rewrite seq_S, app_assoc, Hf. done.
  - by rewrite <- app_assoc.
Qed.

Lemma fifo_run (ls : list label) (w : World) (s : State) :
  run ls (init w) = Some s → fifo s.
Proof.
  apply (run_invariant_all fifo); [intros l; apply fifo_step | apply fifo_init].
Qed.

(** In a [fifo] state every task put before the one at the head of the queue
    has been started. *)
Lemma fifo_head_earlier_started (s : State) (id a : nat) (t : Task) (q : list item) :
  fifo s → file_queue s = QTask id t :: q → a < id →
  EvStart a ∈ events s.
Proof.
  unfold fifo. intros Hf Hq Ha. rewrite Hq in Hf. simpl in Hf.
  apply start_ids_elem.
  assert (Hlen : length (start_ids (events s)) ≤ next_id s).
  { apply (f_equal length) in Hf. rewrite length_app, length_seq in Hf. lia. }
  assert (Hid : seq 0 (next_id s) !! length (start_ids (events s)) = Some id).
  { rewrite <- Hf. by rewrite list_lookup_middle. }
  apply lookup_seq in Hid as [Hid _]. simpl in Hid. subst id.
  assert (Ha' : seq 0 (next_id s) !! a = Some a).
  { apply lookup_seq. split; [done|].
    apply (f_equal length) in Hf. rewrite length_app, length_seq in Hf.
    simpl in Hf. lia. }
  rewrite <- Hf, lookup_app_l in Ha' by done.
  by eapply list_elem_of_lookup_2.
Qed.

Lemma in_flight_set_thread (a i : nat) (pc pc' : wpc) (s s' : State) :
  threads s !! i = Some pc → is_holding pc = 0 ∨ (∀ id t, pc ≠ WRun id t) →
  threads s' = <[i := pc']> (threads s) →
  in_flight a s → in_flight a s'.
Proof.
  intros Hi Hpc Hs' (k & t & Hk).
  exists k, t. rewrite Hs'.
  destruct (decide (k = i)) as [->|Hne].
  - rewrite Hi in Hk. simplify_eq.
    destruct Hpc as [Hpc|Hpc]; [done | by destruct (Hpc a t)].
  - by rewrite list_lookup_insert_ne.
Qed.

(** What a step does to the record of events and to the tasks in flight. *)
Lemma step_event_cases (l : label) (s s' : State) :
  step l s = Some s' →
  (events s' = events s ∧ (∀ a, in_flight a s → in_flight a s') ∧
   length (threads s) ≤ length (threads s')) ∨
  (events s' = events s ++ [EvSentinel] ∧ threads s' = threads s) ∨
  (∃ i id t q,
     threads s !! i = Some WGet ∧ file_queue s = QTask id t :: q ∧
     events s' = events s ++ [EvStart id] ∧
     threads s' = <[i := WRun id t]> (threads s)) ∨
  (∃ i id t pc',
     threads s !! i = Some (WRun id t) ∧
     events s' = events s ++ [EvDone id] ∧
     threads s' = <[i := pc']> (threads s) ∧
     ∀ a t', pc' ≠ WRun a t').
Proof.
  intros Hstep.
  step_cases Hstep; simpl;
    try solve
      [ left; split; [done|]; split;
        [|rewrite ?length_insert, ?length_app; simpl; lia];
        intros a Ha;
        first [ exact Ha
              | eapply in_flight_set_thread;
                  [eassumption | by right | reflexivity | exact Ha]
              | destruct Ha as (k & t' & Hk); exists k, t'; simpl;
                rewrite lookup_app_l; [done | by eapply lookup_lt_Some] ] ];
    try solve [right; left; done];
    try solve [right; right; left; eauto 10];
    try solve [right; right; right; do 4 eexists; repeat split; eauto].
Qed.

Lemma started_accounted_step (l : label) (s s' : State) :
  started_accounted s → step l s = Some s' → started_accounted s'.
Proof.
  unfold started_accounted. intros Hsa Hstep.
  destruct (step_event_cases l s s' Hstep)
    as [(He & Hfl & _)|[(He & Ht)|[(i & id & t & q & Hi & _ & He & Ht)
       |(i & id & t & ok & Hi & He & Ht & Hnr)]]];
    rewrite He; intros a Ha.
  - destruct (Hsa a Ha) as [?|?]; [by left | right; by apply Hfl].
  - apply elem_of_app in Ha as [Ha|Ha]; [|by apply list_elem_of_singleton in Ha].
    destruct (Hsa a Ha) as [?|(k & t & Hk)].
    + left. apply elem_of_app. by left.
    + right. exists k, t. by rewrite Ht.
  - pose proof (lookup_lt_Some _ _ _ Hi) as Hlt.
    apply elem_of_app in Ha as [Ha|Ha].
    + destruct (Hsa a Ha) as [?|Hf].
      * left. apply elem_of_app. by left.
      * right. eapply in_flight_set_thread; [exact Hi | by left | exact Ht | exact Hf].
    + apply list_elem_of_singleton in Ha. simplify_eq.
      right. exists i, t. rewrite Ht. by apply list_lookup_insert_eq.
  - pose proof (lookup_lt_Some _ _ _ Hi) as Hlt.
    apply elem_of_app in Ha as [Ha|Ha]; [|by apply list_elem_of_singleton in Ha].
    destruct (Hsa a Ha) as [?|(k & t' & Hk)].
    + left. apply elem_of_app. by left.
    + destruct (decide (k = i)) as [->|Hne].
      * rewrite Hi in Hk. simplify_eq. left. apply elem_of_app. right.
        by apply list_elem_of_singleton.
      * right. exists k, t'. rewrite Ht. by rewrite list_lookup_insert_ne.
Qed.

Lemma before_snoc (x y e : event) (evs : list event) :
  before x y evs → before x y (evs ++ [e]).
Proof.
  intros (l1 & l2 & l3 & ->). exists l1, l2, (l3 ++ [e]).
  by rewrite <- !app_assoc, <- !app_comm_cons, <- app_assoc.
Qed.

Lemma before_new (x y : event) (evs : list event) :
  x ∈ evs → before x y (evs ++ [y]).
Proof.
  intros (l1 & l2 & ->)%list_elem_of_split. exists l1, l2, [].
  by rewrite <- app_assoc.
Qed.

(** With at most one worker thread, nothing is in flight while that thread
    is at [get]. *)
Lemma single_thread_idle (s : State) (i a : nat) :
  length (threads s) ≤ 1 → threads s !! i = Some WGet → ¬ in_flight a s.
Proof.
  intros Hlen Hi (k & t & Hk).
  pose proof (lookup_lt_Some _ _ _ Hi). pose proof (lookup_lt_Some _ _ _ Hk).
  assert (k = i) as -> by lia. rewrite Hi in Hk. done.
Qed.

Lemma in_order_step (l : label) (s s' : State) :
  fifo s → started_accounted s → length (threads s') ≤ 1 →
  in_order s → step l s = Some s' → in_order s'.
Proof.
  unfold in_order. intros Hf Hsa Hlen Hord Hstep.
  destruct (step_event_cases l s s' Hstep)
    as [(He & _ & _)|[(He & Ht)|[(i & id & t & q & Hi & Hq & He & Ht)
       |(i & id & t & ok & Hi & He & Ht & Hnr)]]];
    rewrite He; intros a b Hab Hb.
  - by apply Hord.
  - apply elem_of_app in Hb as [Hb|Hb]; [|by apply list_elem_of_singleton in Hb].
    apply before_snoc. by apply Hord.
  - apply elem_of_app in Hb as [Hb|Hb].
    + apply before_snoc. by apply Hord.
    + apply list_elem_of_singleton in Hb. simplify_eq.
      apply before_new.
      pose proof (fifo_head_earlier_started s _ a t q Hf Hq Hab) as Ha.
      destruct (Hsa a Ha) as [Hd|Hfl]; [done|].
      exfalso. eapply (single_thread_idle s i a); [|exact Hi|exact Hfl].
      rewrite Ht, length_insert in Hlen. done.
  - apply elem_of_app in Hb as [Hb|Hb]; [|by apply list_elem_of_singleton in Hb].
    apply before_snoc. by apply Hord.
Qed.

Lemma threads_length_step (l : label) (s s' : State) :
  step l s = Some s' → length (threads s) ≤ length (threads s').
Proof.
  intros Hstep.
  destruct (step_event_cases l s s' Hstep)
    as [(_ & _ & Hl)|[(_ & Ht)|[(i & id & t & q & _ & _ & _ & Ht)
       |(i & id & t & ok & _ & _ & Ht & _)]]];
    rewrite ?Ht, ?length_insert; lia.
Qed.

Lemma threads_length_run (ls : list label) (s s' : State) :
  run ls s = Some s' → length (threads s) ≤ length (threads s').
Proof.
  revert s. induction ls as [|l ls IH]; intros s Hrun; simpl in Hrun.
  - by simplify_eq.
  - destruct (step l s) as [s1|] eqn:E; [|done].
    pose proof (threads_length_step l s s1 E). specialize (IH s1 Hrun). lia.
Qed.

Lemma started_accounted_run (ls : list label) (w : World) (s : State) :
  run ls (init w) = Some s → started_accounted s.
Proof.
  apply (run_invariant_all started_accounted).
  - intros l. apply started_accounted_step.
  - intros a Ha. simpl in Ha. by apply elem_of_nil in Ha.
Qed.

Lemma in_order_run (ls : list label) (w : World) (s : State) :
  run ls (init w) = Some s → length (threads s) ≤ 1 → in_order s.
Proof.
  revert s. induction ls as [|l ls IH] using rev_ind; intros s Hrun Hlen.
  - simpl in Hrun. simplify_eq. intros a b _ Hb. simpl in Hb.
    by apply elem_of_nil in Hb.
  - apply run_snoc in Hrun as (s1 & Hrun1 & Hstep).
    pose proof (threads_length_step l s1 s Hstep) as Hmono.
    apply (in_order_step l s1 s); try done.
    + by eapply fifo_run.
    + by eapply started_accounted_run.
    + apply IH; [done | lia].
Qed.

(** *** [stop_workers] returns *)













(** *** One caller keeps the live threads tracked *)


Lemma run_one_caller_run (ls : list label) (s s' : State) :
  run_one_caller ls s = Some s' → run ls s = Some s'.
Proof.
  revert s. induction ls as [|l ls IH]; intros s Hrun; simpl in *; [done|].
  destruct (is_invoke l && negb (idle s)); [done|].
  destruct (step l s) as [s1|]; [by apply IH | done].
Qed.









End PoolFacts.

(** ** Claims about the worker pool *)

Section PoolClaims.

Import Py FileOperations FileProcessor PoolFacts Scenario.
Local Open Scope nat_scope.

(** C4, as stated, fails: a worker finishes a task between the [put] and the
    increment of [total] inside [add_task], another thread calls
    [get_progress] there, and the dict it is handed has processed 1,
    errors 0 and total 0. *)
Lemma get_progress_exceeds_total :
  ∃ s l p,
    run poll_inside_add (init w0) = Some s ∧
    calls s !! 2 = Some (CRet (Some l)) ∧
    heap s !! l = Some p ∧
    total p < processed p + errors p.
Proof.
  eexists _, 1, (mkProgress 0 1 0).
  split; [vm_compute; reflexivity|].
  split; [reflexivity|]. split; [reflexivity|]. simpl. lia.
Qed.

(** C4, amended: on a pool whose counters account for its tasks and are not
    reset while it runs, every [get_progress] call returns at once a
    reference to a fresh dict, a copy of the counters made in one step under
    the lock; in it processed + errors is at most total plus the number of
    [add_task] calls that have put their task and not yet incremented
    [total], so at most total when no [add_task] call is at that point; and
    no later step of any thread changes the dict handed out. *)
Theorem get_progress_snapshot
    (s0 : State) (ls : list label) (s : State) (j : nat) :
  accounted s0 → no_reset ls → run ls s0 = Some s →
  calls s !! j = Some CGet →
  ∃ s' l,
    step (CallStep j) s = Some s' ∧
    calls s' !! j = Some (CRet (Some l)) ∧
    l ≠ progress_ref s' ∧
    heap s' !! l = Some (counters s) ∧
    counters s' = counters s ∧
    processed (counters s) + errors (counters s)
      ≤ total (counters s) + pend_inc s ∧
    (pend_inc s = 0 →
     processed (counters s) + errors (counters s) ≤ total (counters s)) ∧
    (∀ ls2 s2, run ls2 s' = Some s2 →
       l ≠ progress_ref s2 ∧ heap s2 !! l = Some (counters s)).
Proof.
  intros Hacc Hnr Hrun Hj.
  destruct (accounted_run ls s0 s Hnr Hacc Hrun) as [Hacc' _].
  pose proof (accounted_bound s Hacc') as Hb.
  destruct Hacc' as (Hr & _ & _).
  destruct (get_progress_step j s Hr Hj) as (s' & Hstep & Hret & Hc & Hout).
  exists s', (length (heap s)).
  split; [done|]. split; [done|].
  destruct Hout as [Hne Hl].
  split; [done|]. split; [done|]. split; [done|]. split; [done|].
  split; [lia|].
  intros ls2 s2 Hrun2.
  exact (handed_out_run _ _ ls2 s' s2 (conj Hne Hl) Hrun2).
Qed.

Lemma get_progress_snapshot_witness :
  ∃ s' l,
    step (CallStep 0) (with_calls [CGet] (init w0)) = Some s' ∧
    calls s' !! 0 = Some (CRet (Some l)) ∧
    l ≠ progress_ref s' ∧
    heap s' !! l = Some (counters (with_calls [CGet] (init w0))) ∧
    counters s' = counters (with_calls [CGet] (init w0)) ∧
    processed (counters (with_calls [CGet] (init w0)))
      + errors (counters (with_calls [CGet] (init w0)))
      ≤ total (counters (with_calls [CGet] (init w0)))
        + pend_inc (with_calls [CGet] (init w0)) ∧
    (pend_inc (with_calls [CGet] (init w0)) = 0 →
     processed (counters (with_calls [CGet] (init w0)))
       + errors (counters (with_calls [CGet] (init w0)))
       ≤ total (counters (with_calls [CGet] (init w0)))) ∧
    (∀ ls2 s2, run ls2 s' = Some s2 →
       l ≠ progress_ref s2 ∧
       heap s2 !! l = Some (counters (with_calls [CGet] (init w0)))).
Proof.
  apply (get_progress_snapshot (init w0) [Invoke CGet]
           (with_calls [CGet] (init w0)) 0);
    [apply accounted_init | reflexivity | reflexivity | reflexivity].
Defined.
















(** C8: tasks leave the queue in the order of their [put]: the tasks
    dequeued so far, in the order of their dequeue, followed by the tasks
    still waiting, are the tasks numbered in the order they were put. In a
    pool with one worker thread, whenever a task put later has started,
    every task put before it has ended earlier. *)
Theorem fifo_single_worker (w : World) (ls : list label) (s : State) :
  run ls (init w) = Some s →
  start_ids (events s) ++ task_ids (file_queue s) = seq 0 (next_id s) ∧
  (length (threads s) ≤ 1 →
   ∀ a b, a < b → EvStart b ∈ events s →
     before (EvDone a) (EvStart b) (events s)).
Proof.
  intros Hrun. split.
  - exact (fifo_run ls w s Hrun).
  - intros Hlen. exact (in_order_run ls w s Hrun Hlen).
Qed.

Lemma fifo_single_worker_witness :
  ∃ s, run run_raise_then_ok (init w0) = Some s ∧
    start_ids (events s) ++ task_ids (file_queue s) = [0; 1] ∧
    before (EvDone 0) (EvStart 1) (events s).
Proof.
  eexists. split; [vm_compute; reflexivity|].
  destruct (fifo_single_worker w0 run_raise_then_ok _
              ltac:(vm_compute; reflexivity)) as [Hf Ho].
  split; [exact Hf|].
  apply Ho; [simpl; lia | lia |].
  apply list_elem_of_further, list_elem_of_further, list_elem_of_here.
Defined.

End PoolClaims.

(** ** More about the pool *)

Module PoolMoreFacts.

Import FileProcessor PoolFacts PoolMore.
Local Open Scope nat_scope.

(** *** [start_workers] *)

Lemma spawn_loop (j k : nat) (s : State) :
  calls s !! j = Some (CSpawn k) →
  ∃ s', run (alone j (2 * k + 1)) s = Some s' ∧
    calls s' !! j = Some (CRet None) ∧
    threads s' = threads s ++ replicate k WHead ∧
    workers s' = workers s ++ seq (length (threads s)) k ∧
    running s' = running s ∧ file_queue s' = file_queue s ∧
    heap s' = heap s ∧ progress_ref s' = progress_ref s.
Proof.
  revert s. induction k as [|k IH]; intros s Hj;
    pose proof (lookup_lt_Some _ _ _ Hj) as Hlt.
  - simpl. unfold call_step. rewrite Hj. eexists. split; [reflexivity|].
    simpl. rewrite !app_nil_r.
    split; [by apply list_lookup_insert_eq | done].
  - replace (2 * S k + 1) with (S (S (2 * k + 1))) by lia.
    unfold alone in *. simpl replicate. simpl run.
    unfold call_step at 1. rewrite Hj.
    unfold call_step at 1. simpl calls.
    rewrite list_lookup_insert_eq by done.
    set (s2 := set_call j (CSpawn k) _).
    destruct (IH s2) as (s' & Hrun & Hc & Ht & Hw & Hr & Hq & Hh & Hp).
    { subst s2. simpl. apply list_lookup_insert_eq. by rewrite length_insert. }
    exists s'. split; [exact Hrun|]. split; [exact Hc|].
    subst s2. simpl in *.
    rewrite Ht, Hw, length_app. simpl.
    rewrite <- !app_assoc. simpl.
    replace (length (threads s) + 1) with (S (length (threads s))) by lia.
    done.
Qed.

(** *** [reset_progress] *)


(** *** Sentinels that nobody takes *)

Lemma stop_rest_step (j k1 : nat) (s1 : State) (l : label) (s s' : State) :
  is_invoke l = false → stop_rest j k1 s1 s → step l s = Some s' →
  stop_rest j k1 s1 s'.
Proof.
  intros Hl (Hrun & Hoth & c & k & Hc & Hk & Hle) Hstep.
  pose proof (lookup_lt_Some _ _ _ Hc) as Hlt.
  destruct l as [c0|j0|i]; [done| |]; simpl in Hstep.
  - destruct (decide (j0 = j)) as [->|Hne].
    + unfold call_step in Hstep. rewrite Hc in Hstep.
      destruct c as [| | | | | | | |[|k']| | |[]]; try discriminate Hk;
        repeat case_match; simplify_eq/=;
        (split; [done|]);
        (split; [intros j' c' Hne' Hl'; simpl in Hl';
                 rewrite list_lookup_insert_ne in Hl' by done; eauto|]);
        eexists _, _;
        (split; [simpl; by apply list_lookup_insert_eq|]);
        (split; [reflexivity|]);
        unfold nones, getting in *; simpl;
        rewrite ?sum_over_snoc; simpl; lia.
    + unfold call_step in Hstep.
      destruct (calls s !! j0) as [c0|] eqn:E; [|done].
      apply Hoth in E; [|done]. by destruct c0.
  - unfold worker_step in Hstep. rewrite Hrun in Hstep.
    repeat case_match; simplify_eq/=;
      (split; [done|]); (split; [done|]);
      exists c, k; (split; [done|]); (split; [done|]);
      unfold nones, getting in *; simpl;
      repeat match goal with
      | H : file_queue _ = _ |- _ => rewrite H in *
      end;
      rewrite ?sum_over_cons in *; simpl in *;
      sum_ins; lia.
Qed.

Lemma stop_rest_run (j k1 : nat) (s1 : State) (ls : list label) (s s' : State) :
  no_invoke ls → stop_rest j k1 s1 s → run ls s = Some s' →
  stop_rest j k1 s1 s'.
Proof.
  intros Hni Hs Hrun.
  apply (run_invariant (stop_rest j k1 s1) (λ l, negb (is_invoke l)))
    with ls s; try done.
  intros l t t' Hl. apply stop_rest_step. by apply negb_true_iff.
Qed.

(** *** Tasks put and tasks started *)

Lemma puts_step (l : label) (s s' : State) :
  step l s = Some s' →
  next_id s' + pend_put s' = next_id s + pend_put s + is_add l.
Proof.
  intros Hstep. unfold pend_put.
  step_cases Hstep; simpl; sum_ins; lia.
Qed.

Lemma puts_run (ls : list label) (s s' : State) :
  run ls s = Some s' →
  next_id s' + pend_put s' = next_id s + pend_put s + adds ls.
Proof.
  unfold adds. revert s.
  induction ls as [|l ls IH]; intros s Hrun; simpl in *.
  - simplify_eq. rewrite sum_over_nil. lia.
  - destruct (step l s) as [s1|] eqn:E; [|done].
    pose proof (puts_step l s s1 E). specialize (IH s1 Hrun).
    rewrite sum_over_cons. lia.
Qed.

Lemma task_ids_length (q : list item) : length (task_ids q) = sum_over is_task q.
Proof.
  induction q as [|[id t|] q IH]; simpl; [done| |].
  - rewrite sum_over_cons. simpl. by rewrite IH.
  - by rewrite sum_over_cons.
Qed.

(** *** A pool without workers *)

Lemma unmanned_step (l : label) (s s' : State) :
  is_start l = false → unmanned s → step l s = Some s' →
  unmanned s' ∧
  start_ids (events s') = start_ids (events s) ∧
  queued s' + pend_put s' = queued s + pend_put s + is_add l.
Proof.
  intros Hl (Hdead & Hns) Hstep. unfold unmanned, queued, pend_put.
  destruct l as [c|j|i]; simpl in Hstep.
  - destruct (is_entry c) eqn:Hc; [|done]. simplify_eq. simpl.
    rewrite !sum_over_snoc, Hns.
    destruct c; try discriminate Hl; try discriminate Hc; simpl;
      (split; [split; [done | lia]|]); (split; [done | lia]).
  - unfold call_step in Hstep.
    destruct (calls s !! j) as [c|] eqn:Hj; [|done].
    pose proof (sum_over_lookup_le is_starting _ _ _ Hj) as Hle.
    destruct c; simpl in Hle; try lia;
      repeat case_match; simplify_eq/=;
      unfold start_ids; rewrite ?omap_app; simpl; rewrite ?app_nil_r;
      sum_ins; (split; [split; [done | lia]|]); (split; [done | lia]).
  - unfold worker_step in Hstep.
    destruct (threads s !! i) as [pc|] eqn:Hi; [|done].
    apply Hdead in Hi. by destruct pc.
Qed.

Lemma unmanned_run (ls : list label) (s s' : State) :
  no_start ls → unmanned s → run ls s = Some s' →
  unmanned s' ∧
  start_ids (events s') = start_ids (events s) ∧
  queued s' + pend_put s' = queued s + pend_put s + adds ls.
Proof.
  unfold no_start, adds. revert s.
  induction ls as [|l ls IH]; intros s Hnr Hst Hrun; simpl in *.
  - simplify_eq. rewrite sum_over_nil. split; [done|]. split; [done | lia].
  - apply andb_prop in Hnr as [Hl Hls]. apply negb_true_iff in Hl.
    destruct (step l s) as [s1|] eqn:E; [|done].
    destruct (unmanned_step l s s1 Hl Hst E) as (Hst1 & H1 & H2).
    destruct (IH s1 Hls Hst1 Hrun) as (Hst' & H1' & H2').
    split; [done|]. rewrite sum_over_cons. split; [congruence | lia].
Qed.

End PoolMoreFacts.

Section PoolExtras.

Import Py FileOperations FileProcessor PoolFacts PoolMore PoolMoreFacts Scenario.
Local Open Scope nat_scope.

(** X1: [start_workers(n)] never waits and never looks at the pool it is
    called on: left to run, its 2n + 2 steps set [self.running], start
    exactly [n] threads at the loop head and append their [n] handles to
    [self.workers], after the threads and handles that were there. Called on
    a pool that already has workers it adds [n] more. *)
Theorem start_workers_adds_workers (j n : nat) (s : State) :
  calls s !! j = Some (CStart n) →
  ∃ s', run (alone j (2 * n + 2)) s = Some s' ∧
    calls s' !! j = Some (CRet None) ∧
    running s' = true ∧
    threads s' = threads s ++ replicate n WHead ∧
    workers s' = workers s ++ seq (length (threads s)) n ∧
    file_queue s' = file_queue s ∧ counters s' = counters s.
Proof.
  intros Hj. pose proof (lookup_lt_Some _ _ _ Hj) as Hlt.
  replace (2 * n + 2) with (S (2 * n + 1)) by lia.
  unfold alone. simpl replicate. simpl run.
  unfold call_step at 1. rewrite Hj.
  destruct (spawn_loop j n (set_call j (CSpawn n) (with_running true s)))
    as (s' & Hrun & Hc & Ht & Hw & Hr & Hq & Hh & Hp).
  { simpl. by apply list_lookup_insert_eq. }
  exists s'. split; [exact Hrun|]. split; [done|]. simpl in *.
  split; [done|]. split; [done|]. split; [done|]. split; [done|].
  unfold counters. by rewrite Hh, Hp.
Qed.

Lemma start_workers_adds_workers_witness :
  ∃ s', run (alone 1 6) (with_calls [CRet None; CStart 2] in_falsy_task)
          = Some s' ∧
    calls s' !! 1 = Some (CRet None) ∧
    running s' = true ∧
    threads s' = [WRun 0 task_bad_restore; WHead; WHead] ∧
    workers s' = [1; 2] ∧
    file_queue s' = [] ∧ counters s' = zero_progress.
Proof.
  apply (start_workers_adds_workers 1 2
           (with_calls [CRet None; CStart 2] in_falsy_task)).
  reflexivity.
Defined.



(** X3: as long as [reset_progress] is not called, no counter ever goes
    down: along every schedule total, processed and errors at a later point
    are at least what they were. *)
Theorem counters_only_grow (ls : list label) (s s' : State) :
  steady s → no_reset ls → run ls s = Some s' →
  total (counters s) ≤ total (counters s') ∧
  processed (counters s) ≤ processed (counters s') ∧
  errors (counters s) ≤ errors (counters s').
Proof.
  intros Hst Hnr Hrun.
  destruct (tally_run ls s s' Hnr Hst Hrun) as (_ & _ & _ & H3 & H4 & H5).
  done.
Qed.

Lemma counters_only_grow_witness :
  ∃ s', run [WorkStep 0; WorkStep 0] in_falsy_task = Some s' ∧
    total (counters in_falsy_task) ≤ total (counters s') ∧
    processed (counters in_falsy_task) ≤ processed (counters s') ∧
    errors (counters in_falsy_task) ≤ errors (counters s').
Proof.
  eexists. split; [vm_compute; reflexivity|].
  apply (counters_only_grow [WorkStep 0; WorkStep 0] in_falsy_task).
  - split; [simpl; lia | reflexivity].
  - reflexivity.
  - vm_compute; reflexivity.
Defined.

(** X4: [stop_workers] puts one [None] per worker, but a worker that is not
    waiting in [get] leaves through the [while self.running] test and takes
    none.  So when [stop_workers] returns, with no other call under way, the
    queue holds at least as many [None]s more than before as there were
    workers not waiting in [get] when it was called: they stay in the queue
    for the workers started next. *)
Theorem stop_workers_leaves_sentinels
    (j : nat) (s : State) (ls : list label) (s' : State) :
  calls s !! j = Some CStop →
  (∀ j' c, j' ≠ j → calls s !! j' = Some c → is_returned c = true) →
  no_invoke ls → run (CallStep j :: ls) s = Some s' →
  calls s' !! j = Some (CRet None) →
  nones s + length (workers s) ≤ nones s' + getting s.
Proof.
  intros Hj Hoth Hni Hrun Hret.
  pose proof (lookup_lt_Some _ _ _ Hj) as Hlt.
  simpl in Hrun. unfold call_step in Hrun. rewrite Hj in Hrun.
  set (s1 := set_call j _ _) in Hrun.
  assert (H1 : stop_rest j (length (workers s)) s1 s1).
  { split; [done|]. split.
    - intros j' c Hne Hl. subst s1. simpl in Hl.
      rewrite list_lookup_insert_ne in Hl by done. eauto.
    - eexists _, _. split; [by apply list_lookup_insert_eq|].
      split; [reflexivity|]. lia. }
  destruct (stop_rest_run j _ s1 ls s1 s' Hni H1 Hrun)
    as (_ & _ & c & k & Hc & Hk & Hle).
  rewrite Hret in Hc. simplify_eq/=.
  change (nones s1) with (nones s) in Hle.
  change (getting s1) with (getting s) in Hle. lia.
Qed.

Lemma stop_workers_leaves_sentinels_witness :
  ∃ s s',
    run (start_one 0 ++ add_one 1 task_bad_restore ++
         [WorkStep 0; WorkStep 0; Invoke CStop]) (init w0) = Some s ∧
    run [CallStep 2; CallStep 2; CallStep 2;
         WorkStep 0; WorkStep 0; WorkStep 0; WorkStep 0;
         CallStep 2; CallStep 2; CallStep 2] s = Some s' ∧
    nones s + length (workers s) ≤ nones s' + getting s.
Proof.
  eexists _, _. split; [vm_compute; reflexivity|].
  split; [vm_compute; reflexivity|].
  eapply (stop_workers_leaves_sentinels 2 _
            [CallStep 2; CallStep 2;
             WorkStep 0; WorkStep 0; WorkStep 0; WorkStep 0;
             CallStep 2; CallStep 2; CallStep 2]).
  - reflexivity.
  - intros [|[|[|j']]] c Hne Hl; simplify_eq/=; done.
  - reflexivity.
  - vm_compute; reflexivity.
  - reflexivity.
Defined.

(** X5: no task is handed to a worker twice and none is lost.  In every
    state the pool reaches from its construction, the tasks dequeued so far
    are pairwise distinct, none of them is still in the queue, and the
    [add_task] calls entered so far are exactly the tasks dequeued, the
    tasks waiting and the calls that have not yet reached their [put]. *)
Theorem task_dequeued_at_most_once (w : World) (ls : list label) (s : State) :
  run ls (init w) = Some s →
  NoDup (start_ids (events s)) ∧
  (∀ id, id ∈ start_ids (events s) → id ∉ task_ids (file_queue s)) ∧
  length (start_ids (events s)) + queued s + pend_put s = adds ls.
Proof.
  intros Hrun.
  pose proof (fifo_run ls w s Hrun) as Hf. unfold fifo in Hf.
  pose proof (NoDup_seq 0 (next_id s)) as Hnd. rewrite <- Hf in Hnd.
  apply NoDup_app in Hnd as (Hnd1 & Hdis & _).
  split; [done|]. split; [done|].
  pose proof (puts_run ls (init w) s Hrun) as Hp. simpl in Hp.
  apply (f_equal length) in Hf.
  rewrite length_app, length_seq, task_ids_length in Hf.
  unfold queued. lia.
Qed.

Lemma task_dequeued_at_most_once_witness :
  ∃ s, run (start_one 0 ++ add_one 1 task_raise ++
            [Invoke (CAdd task_bad_restore); WorkStep 0; WorkStep 0])
         (init w0) = Some s ∧
    NoDup (start_ids (events s)) ∧
    length (start_ids (events s)) + queued s + pend_put s = 2.
Proof.
  eexists. split; [vm_compute; reflexivity|].
  destruct (task_dequeued_at_most_once w0
              (start_one 0 ++ add_one 1 task_raise ++
               [Invoke (CAdd task_bad_restore); WorkStep 0; WorkStep 0]) _
              ltac:(vm_compute; reflexivity)) as (Hnd & _ & Hlen).
  split; [exact Hnd | exact Hlen].
Defined.

(** X6: [add_task] neither starts workers nor fails without them.  On a pool
    in which no worker thread is alive (never started, or stopped), as long
    as [start_workers] is not called no task is dequeued whatever else is
    called: every task added waits in the queue. *)
Theorem tasks_wait_without_workers (ls : list label) (s s' : State) :
  (∀ i pc, threads s !! i = Some pc → dead pc = true) →
  sum_over is_starting (calls s) = 0 →
  no_start ls → run ls s = Some s' →
  start_ids (events s') = start_ids (events s) ∧
  queued s' + pend_put s' = queued s + pend_put s + adds ls ∧
  (∀ i pc, threads s' !! i = Some pc → dead pc = true).
Proof.
  intros Hdead Hns Hls Hrun.
  destruct (unmanned_run ls s s' Hls (conj Hdead Hns) Hrun)
    as ((Hdead' & _) & He & Hq).
  done.
Qed.

Lemma tasks_wait_without_workers_witness :
  ∃ s', run (add_one 0 task_bad_restore ++ [Invoke CGet; CallStep 1])
          (init w0) = Some s' ∧
    start_ids (events s') = [] ∧ queued s' + pend_put s' = 1.
Proof.
  eexists. split; [vm_compute; reflexivity|].
  edestruct (tasks_wait_without_workers
               (add_one 0 task_bad_restore ++ [Invoke CGet; CallStep 1])
               (init w0)) as (He & Hq & _).
  - intros i pc Hi. by destruct i.
  - reflexivity.
  - reflexivity.
  - vm_compute; reflexivity.
  - split; [exact He | exact Hq].
Defined.

End PoolExtras.

(** ** More about the file operations *)

Section FileMoreFacts.

Import Py FileOperations Effects.
Local Open Scope string_scope.



Lemma restore_backup_missing (a : string) (w : World) :
  fs w !! (a +:+ BACKUP_EXTENSION) = None →
  restore_backup (a +:+ BACKUP_EXTENSION) w =
    (inl false,
     add_log ERROR
       ("Restore failed for " +:+ (a +:+ BACKUP_EXTENSION) +:+ ": " +:+
        exn_str (FileNotFoundError (a +:+ BACKUP_EXTENSION))) w).
Proof.
  intros Hb. unfold restore_backup, try_except, bind, copy2.
  rewrite endswith_app. cbn [negb].
  by rewrite Hb.
Qed.

(** The three operations return on every input: their handlers catch what
    the body raises. *)
Lemma restore_backup_returns (bp : string) (w : World) :
  ∃ r, (restore_backup bp w).1 = inl r.
Proof.
  unfold restore_backup, try_except, bind, copy2.
  destruct (negb _); simpl; [eauto|].
  destruct (fs w !! bp); simpl; eauto.
Qed.

(** *** What the parts of [add_text_to_file] raise and touch *)

Lemma only_Exception_ret {A} (a : A) : only_Exception (ret a).
Proof. intros w e w' H. discriminate H. Qed.

Lemma only_Exception_bind {A B} (m : M A) (k : A → M B) :
  only_Exception m → (∀ a, only_Exception (k a)) → only_Exception (bind m k).
Proof.
  intros Hm Hk w e w' H. unfold bind in H.
  destruct (m w) as [[a|e1] w1] eqn:E.
  - by apply (Hk a w1 e w').
  - simplify_eq. by apply (Hm w e w').
Qed.

Lemma only_Exception_read_text (codecs : Codecs.registry) (p enc : string) :
  only_Exception (read_text codecs p enc).
Proof.
  intros w e w' H. unfold read_text in H.
  repeat case_match; by simplify_eq.
Qed.

Lemma only_Exception_open_w (codecs : Codecs.registry) (p enc : string) :
  only_Exception (open_w codecs p enc).
Proof.
  intros w e w' H. unfold open_w in H.
  repeat case_match; by simplify_eq.
Qed.

Lemma only_Exception_f_write (cd : Codecs.codec) (p : string) (data : text) :
  only_Exception (f_write cd p data).
Proof.
  intros w e w' H. unfold f_write in H.
  repeat case_match; by simplify_eq.
Qed.

Lemma only_Exception_randint (lo hi : nat) : only_Exception (randint lo hi).
Proof.
  intros w e w' H. unfold randint in H.
  repeat case_match; by simplify_eq.
Qed.

Lemma only_Exception_logging_info (msg : string) : only_Exception (logging_info msg).
Proof. intros w e w' H. discriminate H. Qed.

Lemma only_Exception_backup (p : string) (b : bool) :
  only_Exception (if b then bind (create_backup p) (λ _, ret tt) else ret tt).
Proof.
  destruct b; [|apply only_Exception_ret].
  intros w e w' H. unfold bind in H.
  destruct (create_backup_returns p w) as [r Hr].
  destruct (create_backup p w) as [[x|e1] w1]; [discriminate H | discriminate Hr].
Qed.

(** What a handler that returns makes of a body that raises only within
    class [Exception]. *)
Lemma try_except_returns {A} (body : M A) (handler : exn → M A) (w : World) :
  only_Exception body →
  (∀ e w1, ∃ r w2, handler e w1 = (inl r, w2)) →
  ∃ r, (try_except body handler w).1 = inl r.
Proof.
  intros Hb Hh. unfold try_except.
  destruct (body w) as [[a|e] w1] eqn:E; [by eexists|].
  rewrite (Hb w e w1 E).
  destruct (Hh e w1) as (r & w2 & ->). by eexists.
Qed.

Lemma add_text_to_file_returns (codecs : Codecs.registry) (p : string)
    (x : text) (pos : string) (b : bool) (enc : string) (w : World) :
  ∃ r, (add_text_to_file codecs p x pos b enc w).1 = inl r.
Proof.
  unfold add_text_to_file. apply try_except_returns.
  - apply only_Exception_bind; [apply only_Exception_backup|]. intros _.
    apply only_Exception_bind; [apply only_Exception_read_text|]. intros content.
    apply only_Exception_bind; [apply only_Exception_open_w|]. intros f.
    apply only_Exception_bind.
    + repeat case_match;
        try apply only_Exception_f_write; try apply only_Exception_ret.
      apply only_Exception_bind; [apply only_Exception_randint|].
      intros k. apply only_Exception_f_write.
    + intros _. apply only_Exception_bind; [apply only_Exception_logging_info|].
      intros _. apply only_Exception_ret.
  - intros e w1. by eexists _, _.
Qed.












(** *** Newlines *)



End FileMoreFacts.

Section FileExtras.

Import Py FileOperations Scenario MoreScenario.
Local Open Scope string_scope.



(** X8: on a path at which there is no file, [create_backup] returns [None]
    and [add_text_to_file] returns [False], for every text, position,
    backup flag and encoding, and [restore_backup] returns [False] for a
    missing backup with the right suffix.  None of them raises and none
    creates or changes a file: [add_text_to_file] reads before it opens for
    writing. *)
Theorem missing_file_changes_nothing
    (codecs : Codecs.registry) (p : string) (x : text) (pos a : string)
    (b : bool) (enc : string) (w : World) :
  fs w !! p = None →
  fs w !! (a +:+ BACKUP_EXTENSION) = None →
  ((create_backup p w).1 = inl None ∧ fs (create_backup p w).2 = fs w) ∧
  ((add_text_to_file codecs p x pos b enc w).1 = inl false ∧
   fs (add_text_to_file codecs p x pos b enc w).2 = fs w) ∧
  ((restore_backup (a +:+ BACKUP_EXTENSION) w).1 = inl false ∧
   fs (restore_backup (a +:+ BACKUP_EXTENSION) w).2 = fs w).
Proof.
  intros Hp Ha. split; [|split].
  - by rewrite (create_backup_missing p w Hp).
  - by destruct (add_text_missing codecs p x pos b enc w Hp) as (w' & -> & Hf).
  - by rewrite (restore_backup_missing a w Ha).
Qed.

Lemma missing_file_changes_nothing_witness :
  ((create_backup "b.txt" w0).1 = inl None ∧
   fs (create_backup "b.txt" w0).2 = fs w0) ∧
  ((add_text_to_file (codecs0 plain) "b.txt" (text_of "hi") "start" true
      "utf-8" w0).1 = inl false ∧
   fs (add_text_to_file (codecs0 plain) "b.txt" (text_of "hi") "start" true
         "utf-8" w0).2 = fs w0) ∧
  ((restore_backup ("b.txt" +:+ BACKUP_EXTENSION) w0).1 = inl false ∧
   fs (restore_backup ("b.txt" +:+ BACKUP_EXTENSION) w0).2 = fs w0).
Proof.
  apply (missing_file_changes_nothing (codecs0 plain) "b.txt" (text_of "hi")
           "start" "b.txt" true "utf-8" w0);
    reflexivity.
Defined.






End FileExtras.

(** ** The pool fed with file operations *)

Section PoolOfFileOperations.

Import Py FileOperations FileProcessor PoolFacts PoolMore Scenario.
Local Open Scope nat_scope.

Lemma file_task_never_raises (t : Task) : file_task t → never_raises t.
Proof.
  intros [codecs p text pos b enc|bp|p] w;
    unfold outcome_ok, task_of_bool, task_of_path, bind.
  - destruct (add_text_to_file_returns codecs p text pos b enc w) as [r Hr].
    by destruct (add_text_to_file codecs p text pos b enc w) as [[x|e] w'].
  - destruct (restore_backup_returns bp w) as [r Hr].
    by destruct (restore_backup bp w) as [[x|e] w'].
  - destruct (create_backup_returns p w) as [r Hr].
    by destruct (create_backup p w) as [[x|e] w'].
Qed.

Lemma no_failure_init (w : World) : no_failure (init w).
Proof. repeat split; simpl; try lia; constructor. Qed.

Lemma no_failure_step (l : label) (s s' : State) :
  (∀ t, l = Invoke (CAdd t) → never_raises t) →
  no_failure s → step l s = Some s' → no_failure s'.
Proof.
  intros Hl (Hr & He & Ht & Hq & Hc) Hstep. unfold no_failure.
  destruct l as [c|j|i]; simpl in Hstep.
  - destruct (is_entry c) eqn:Hent; [|done]. simplify_eq. simpl.
    repeat split; try done.
    apply Forall_app_2; [done|]. apply Forall_singleton.
    destruct c; simpl; try done. by apply Hl.
  - unfold call_step in Hstep.
    destruct (calls s !! j) as [c|] eqn:Hj; [|done].
    pose proof (Forall_lookup_1 _ _ _ _ Hc Hj) as Hcj.
    destruct c; repeat case_match; simplify_eq; simpl;
      read_counters Hr;
      rewrite ?length_alter, ?length_app, ?length_insert; simpl;
      repeat split; try done; try lia;
      repeat match goal with
      | |- Forall _ (<[_ := _]> _) => apply Forall_insert
      | |- Forall _ (_ ++ [_]) => apply Forall_app_2
      | |- Forall _ [_] => apply Forall_singleton
      end;
      try done.
  - unfold worker_step in Hstep.
    destruct (threads s !! i) as [pc|] eqn:Hi; [|done].
    pose proof (Forall_lookup_1 _ _ _ _ Ht Hi) as Hti.
    destruct pc as [| |id t|ok| |e| | |e]; simpl in Hti.
    + simplify_eq. simpl. repeat split; try done.
      apply Forall_insert; [done|]. by destruct (running s).
    + destruct (file_queue s) as [|[id t|] q] eqn:Eq; simplify_eq; simpl;
        apply Forall_cons_1 in Hq as [Hx Hq];
        repeat split; try done; by apply Forall_insert.
    + specialize (Hti (world s)). unfold outcome_ok in Hti.
      destruct (t (world s)) as [[v|e] w'] eqn:Et; simpl in Hti; [|done].
      simplify_eq. simpl. repeat split; try done. by apply Forall_insert.
    + destruct ok; [|done]. simplify_eq. simpl.
      read_counters Hr. rewrite length_alter.
      repeat split; try done. by apply Forall_insert.
    + destruct (unfinished s); simplify_eq; simpl;
        repeat split; try done; by apply Forall_insert.
    + done.
    + done.
    + done.
    + done.
Qed.

Lemma no_failure_run (ls : list label) (s s' : State) :
  adds_satisfy never_raises ls → no_failure s → run ls s = Some s' →
  no_failure s'.
Proof.
  revert s. induction ls as [|l ls IH]; intros s Hls Hs Hrun; simpl in Hrun.
  - by simplify_eq.
  - apply Forall_cons_1 in Hls as [Hl Hls].
    destruct (step l s) as [s1|] eqn:E; [|done].
    apply (IH s1); try done. by apply (no_failure_step l s).
Qed.

(** X11: the file operations catch what they raise and return [None] or
    [False] instead, and a worker counts a task as an error only when the
    call raises.  So in a pool that is given only file operations as tasks,
    as [process_files] and [restore_backups] do, the error counter is 0 in
    every reachable state and no worker is ever in the handler: a failed
    operation is counted as processed.  Nor is a worker ever ended by an
    exception of its task. *)
Theorem file_operations_never_count_as_errors
    (w : World) (ls : list label) (s : State) :
  adds_satisfy file_task ls → run ls (init w) = Some s →
  errors (counters s) = 0 ∧
  (∀ i, threads s !! i ≠ Some (WCount false)) ∧
  (∀ i e, threads s !! i ≠ Some (WRaise e) ∧ threads s !! i ≠ Some (WKilled e)).
Proof.
  intros Hls Hrun.
  assert (Hnr : adds_satisfy never_raises ls).
  { eapply Forall_impl; [exact Hls|]. intros l Hl t ->.
    apply file_task_never_raises. by apply Hl. }
  destruct (no_failure_run ls (init w) s Hnr (no_failure_init w) Hrun)
    as (_ & He & Ht & _).
  split; [done|]. split.
  - intros i Hi. exact (Forall_lookup_1 _ _ _ _ Ht Hi).
  - intros i e. split; intros Hi; exact (Forall_lookup_1 _ _ _ _ Ht Hi).
Qed.

Lemma file_operations_never_count_as_errors_witness :
  ∃ s, run run_falsy (init w0) = Some s ∧
    processed (counters s) = 1 ∧ errors (counters s) = 0.
Proof.
  eexists. split; [vm_compute; reflexivity|]. split; [reflexivity|].
  apply (file_operations_never_count_as_errors w0 run_falsy).
  - unfold adds_satisfy, run_falsy, start_one, add_one. simpl.
    repeat (apply Forall_cons_2; [intros t Ht; try discriminate Ht|]).
    + injection Ht as <-. apply (ft_restore "a.txt").
    + apply Forall_nil_2.
  - vm_compute; reflexivity.
Defined.

End PoolOfFileOperations.

(** ** The window's handlers and the checksum *)

Section RecentFolders.

Import ModernUI.
Local Open Scope string_scope.
Local Open Scope nat_scope.

Lemma browse_folder_keeps (f : string) (r : list string) :
  NoDup r → length r ≤ 5 →
  NoDup (browse_folder f r) ∧ length (browse_folder f r) ≤ 5.
Proof.
  intros Hnd Hlen. unfold browse_folder.
  destruct (negb (String.eqb f "")); [|done].
  destruct (bool_decide (f ∈ r)) eqn:Hin; simpl; [done|].
  apply bool_decide_eq_false in Hin. split.
  - apply NoDup_cons. split.
    + intros Hf. apply Hin. by apply (subseteq_take 4 r).
    + eapply sublist_NoDup; [done | apply sublist_take].
  - rewrite length_take. lia.
Qed.

Lemma browse_folder_has (f : string) (r : list string) :
  f ≠ "" → f ∈ browse_folder f r.
Proof.
  intros Hf. unfold browse_folder.
  apply String.eqb_neq in Hf. rewrite Hf. simpl.
  destruct (bool_decide (f ∈ r)) eqn:Hin; simpl.
  - by apply bool_decide_eq_true in Hin.
  - apply list_elem_of_here.
Qed.

Lemma browse_folder_known (f : string) (r : list string) :
  f ∈ r → browse_folder f r = r.
Proof.
  intros Hf. unfold browse_folder.
  destruct (negb (String.eqb f "")); [|done].
  by rewrite bool_decide_eq_true_2.
Qed.

(** X12: the list of recent folders stays a list of at most five different
    folders whatever is chosen in the dialog, cancelled dialogs included,
    and the folder chosen last is in it.  Choosing folders that are already
    in the list changes nothing: a folder chosen again is not moved to the
    front. *)
Theorem recent_folders_bounded (folders : list string) (r : list string) :
  NoDup r → length r ≤ 5 →
  let r' := foldl (λ acc f, browse_folder f acc) r folders in
  NoDup r' ∧ length r' ≤ 5 ∧
  (∀ f, last folders = Some f → f ≠ "" → f ∈ r') ∧
  (Forall (λ f, f ∈ r) folders → r' = r).
Proof.
  revert r. induction folders as [|f folders IH] using rev_ind;
    intros r Hnd Hlen; cbv zeta.
  - simpl. repeat split; try done.
  - rewrite foldl_snoc.
    destruct (IH r Hnd Hlen) as (Hnd' & Hlen' & _ & Hsame). cbv zeta in *.
    destruct (browse_folder_keeps f _ Hnd' Hlen') as [H1 H2].
    split; [done|]. split; [done|]. split.
    + intros g Hg Hne. rewrite last_snoc in Hg. simplify_eq.
      by apply browse_folder_has.
    + intros Hall. apply Forall_app in Hall as [Hall Hf].
      apply Forall_cons_1 in Hf as [Hf _].
      rewrite (Hsame Hall). apply browse_folder_known. exact Hf.
Qed.

Lemma recent_folders_bounded_witness :
  foldl (λ acc f, browse_folder f acc) ["/a"; "/b"]
    ["/c"; ""; "/a"; "/d"; "/e"; "/f"]
  = ["/f"; "/e"; "/d"; "/c"; "/a"] ∧
  NoDup (foldl (λ acc f, browse_folder f acc) ["/a"; "/b"]
           ["/c"; ""; "/a"; "/d"; "/e"; "/f"]).
Proof.
  split; [vm_compute; reflexivity|].
  apply (recent_folders_bounded ["/c"; ""; "/a"; "/d"; "/e"; "/f"] ["/a"; "/b"]).
  - apply NoDup_cons. split; [|apply NoDup_singleton].
    intros H. apply list_elem_of_singleton in H. discriminate H.
  - simpl. lia.
Defined.

End RecentFolders.

Section ChecksumFacts.

Import Py Hashlib Checksum.
Local Open Scope string_scope.
Local Open Scope nat_scope.

Lemma substring_nil (n m : nat) : substring n m "" = "".
Proof. by destruct n, m. Qed.

Lemma substring_split (n : nat) (s : string) :
  substring 0 n s +:+ substring n (String.length s - n) s = s.
Proof.
  revert s. induction n as [|n IH]; intros s.
  - simpl. rewrite Nat.sub_0_r.
    replace (substring 0 0 s) with "" by (by destruct s).
    rewrite app_nil_s. apply substring_whole.
  - destruct s as [|c s]; [done|].
    simpl. rewrite app_cons_s. by rewrite IH.
Qed.

Lemma substring_rest_length (n : nat) (s : string) :
  String.length (substring n (String.length s - n) s) = String.length s - n.
Proof.
  revert s. induction n as [|n IH]; intros s.
  - rewrite Nat.sub_0_r. by rewrite substring_whole.
  - destruct s as [|c s]; [done|]. simpl. apply IH.
Qed.

Lemma substring_head_empty (n : nat) (s : string) :
  substring 0 (S n) s = "" → s = "".
Proof. by destruct s. Qed.

Lemma read_chunks_unfold (a : algorithm) (fuel : nat) (h : hstate a) (rest : string) :
  read_chunks a (S fuel) h rest =
    if String.eqb (substring 0 4096 rest) "" then h
    else read_chunks a fuel (h_update a h (substring 0 4096 rest))
           (substring 4096 (String.length rest - 4096) rest).
Proof. reflexivity. Qed.

(** With fuel above the length of what is left to read, the loop feeds the
    hash object all of it. *)
Lemma read_chunks_whole (a : algorithm) (fuel : nat) (h : hstate a) (rest : string) :
  streaming a → String.length rest < fuel →
  read_chunks a fuel h rest = h_update a h rest.
Proof.
  intros [Hnil Happ]. revert h rest.
  induction fuel as [|fuel IH]; intros h rest Hlen; [lia|].
  rewrite read_chunks_unfold.
  remember 4096 as n eqn:Hn.
  assert (Hpos : n ≠ 0) by (subst n; discriminate).
  clear Hn.
  destruct (String.eqb (substring 0 n rest) "") eqn:E.
  - apply String.eqb_eq in E.
    destruct n as [|n]; [done|].
    apply substring_head_empty in E. subst rest. by rewrite Hnil.
  - apply String.eqb_neq in E.
    assert (Hne : rest ≠ "").
    { intros ->. apply E. apply substring_nil. }
    rewrite IH.
    + by rewrite Happ, substring_split.
    + rewrite substring_rest_length.
      destruct rest; [done|]. simpl in *. lia.
Qed.

Lemma calculate_checksum_no_hash (hashlib : module) (p alg : string) (w : World) :
  (∀ a, hashlib alg ≠ Hash a) →
  ∃ msg, calculate_checksum hashlib p alg w =
    (inl None,
     add_log ERROR ("Error calculating checksum for " +:+ p +:+ ": " +:+ msg) w).
Proof.
  intros Ha. unfold calculate_checksum, try_except.
  destruct (hashlib alg) as [|msg|a|mu mh] eqn:E.
  - by eexists.
  - by eexists.
  - by destruct (Ha a).
  - unfold bind, open_rb, read_bytes.
    destruct (fs w !! p) as [c|]; [|by eexists].
    destruct (String.eqb c ""); by eexists.
Qed.

Lemma calculate_checksum_missing
    (hashlib : module) (a : algorithm) (p alg : string) (w : World) :
  hashlib alg = Hash a → fs w !! p = None →
  calculate_checksum hashlib p alg w =
    (inl None,
     add_log ERROR
       ("Error calculating checksum for " +:+ p +:+ ": " +:+
        exn_str (FileNotFoundError p)) w).
Proof.
  intros Ha Hp. unfold calculate_checksum, try_except. rewrite Ha.
  unfold bind, open_rb, read_bytes. by rewrite Hp.
Qed.

Lemma calculate_checksum_found
    (hashlib : module) (a : algorithm) (p alg c : string) (w : World) :
  hashlib alg = Hash a → fs w !! p = Some c →
  calculate_checksum hashlib p alg w =
    match h_hexdigest a (fed a c) with
    | inl digest => (inl (Some digest), w)
    | inr msg =>
        (inl None,
         add_log ERROR
           ("Error calculating checksum for " +:+ p +:+ ": " +:+ msg) w)
    end.
Proof.
  intros Ha Hp. unfold calculate_checksum, try_except. rewrite Ha.
  unfold bind, open_rb, read_bytes. rewrite Hp.
  by destruct (h_hexdigest a (fed a c)).
Qed.

(** The digest of [shake_128] needs a length: the call without one raises,
    and the checksum is [None]. *)
Example calculate_checksum_shake :
  (calculate_checksum MoreScenario.only_md5 "a" "shake_128"
     MoreScenario.w_files).1 = inl None.
Proof. vm_compute. reflexivity. Qed.

End ChecksumFacts.

Section ChecksumExtras.

Import Py Hashlib Checksum MoreScenario.
Local Open Scope string_scope.
Local Open Scope nat_scope.

(** X13: for a hash object with the property Python documents (feeding the
    pieces is feeding the concatenation), [calculate_checksum] on a file
    that exists returns what [hexdigest()] gives for the file's whole
    content, whatever its length: reading in blocks of 4096 bytes does not
    show and the loop ends.  Where [hexdigest()] gives a digest, that is
    returned and nothing is written or logged; where it raises, [None] is
    returned and the error is logged. *)
Theorem calculate_checksum_whole_file
    (hashlib : module) (a : algorithm) (p alg c : string) (w : World) :
  streaming a → hashlib alg = Hash a → fs w !! p = Some c →
  calculate_checksum hashlib p alg w =
    match h_hexdigest a (h_update a (h_new a) c) with
    | inl digest => (inl (Some digest), w)
    | inr msg =>
        (inl None,
         add_log ERROR
           ("Error calculating checksum for " +:+ p +:+ ": " +:+ msg) w)
    end.
Proof.
  intros Hs Ha Hp.
  rewrite (calculate_checksum_found hashlib a p alg c w Ha Hp).
  unfold fed. rewrite read_chunks_whole by (done || lia). done.
Qed.

Lemma app_nil_r_s (h : string) : h +:+ "" = h.
Proof.
  induction h as [|x h IH]; [done|]. rewrite app_cons_s. by rewrite IH.
Qed.

Lemma keep_all_streaming : streaming keep_all.
Proof.
  split.
  - intros h. apply app_nil_r_s.
  - intros h x y. apply app_assoc_s.
Qed.

Lemma calculate_checksum_whole_file_witness :
  calculate_checksum only_md5 "a" "md5" w_files = (inl (Some "same"), w_files) ∧
  calculate_checksum only_md5 "a" "shake_128" w_files
  = (inl None,
     add_log ERROR
       ("Error calculating checksum for a: " +:+
        "hexdigest() missing required argument 'length' (pos 1)") w_files).
Proof.
  split.
  - exact (calculate_checksum_whole_file only_md5 keep_all "a" "md5" "same"
             w_files keep_all_streaming eq_refl eq_refl).
  - exact (calculate_checksum_whole_file only_md5 needs_length "a" "shake_128"
             "same" w_files keep_all_streaming eq_refl eq_refl).
Defined.


End ChecksumExtras.

Section DuplicateFacts.

Import Py Hashlib Checksum ModernUI Duplicates.
Local Open Scope string_scope.
Local Open Scope nat_scope.

Lemma calculate_checksum_returns (hashlib : module) (p alg : string) (w : World) :
  ∃ r w', calculate_checksum hashlib p alg w = (inl r, w') ∧ fs w' = fs w.
Proof.
  destruct (hashlib alg) as [|m|a|mu mh] eqn:Ha.
  1, 2, 4:
    destruct (calculate_checksum_no_hash hashlib p alg w) as [msg E];
      [intros a; by rewrite Ha|];
    rewrite E; by eauto.
  destruct (fs w !! p) as [c|] eqn:Hp.
  - rewrite (calculate_checksum_found hashlib a p alg c w Ha Hp).
    destruct (h_hexdigest a (fed a c)); eauto.
  - rewrite (calculate_checksum_missing hashlib a p alg w Ha Hp). eauto.
Qed.

Lemma md5_of_run (hashlib : module) (p : string) (w : World) :
  ∃ w', calculate_checksum hashlib p "md5" w = (inl (md5_of hashlib w p), w') ∧
    fs w' = fs w.
Proof.
  destruct (calculate_checksum_returns hashlib p "md5" w) as (r & w' & E & Hf).
  exists w'. unfold md5_of. rewrite E. by split.
Qed.

Lemma md5_of_unknown (hashlib : module) (p : string) (w : World) :
  (∀ a, hashlib "md5" ≠ Hash a) → md5_of hashlib w p = None.
Proof.
  intros Ha. unfold md5_of.
  destruct (calculate_checksum_no_hash hashlib p "md5" w Ha) as [msg E].
  by rewrite E.
Qed.

Lemma md5_of_files (hashlib : module) (p q : string) (w1 w2 : World) :
  fs w1 !! p = fs w2 !! q →
  md5_of hashlib w1 p = md5_of hashlib w2 q.
Proof.
  intros Hf.
  destruct (hashlib "md5") as [|m|a|mu mh] eqn:Ha.
  1, 2, 4: rewrite !md5_of_unknown; [done|intros a; by rewrite Ha..].
  unfold md5_of.
  destruct (fs w1 !! p) as [c|] eqn:Hp; symmetry in Hf.
  - rewrite (calculate_checksum_found hashlib a p "md5" c w1 Ha Hp).
    rewrite (calculate_checksum_found hashlib a q "md5" c w2 Ha Hf).
    by destruct (h_hexdigest a (fed a c)).
  - rewrite (calculate_checksum_missing hashlib a p "md5" w1 Ha Hp).
    by rewrite (calculate_checksum_missing hashlib a q "md5" w2 Ha Hf).
Qed.

Section FirstAt.

Variable key : string → option string.

Lemma first_at_lt (l : list string) (i : nat) (h : option string) (o : string) :
  first_at key l i h o → i < length l.
Proof. intros (Hi & _). by eapply lookup_lt_Some. Qed.

Lemma first_at_unique (l : list string) (i i' : nat) (h : option string)
    (o o' : string) :
  first_at key l i h o → first_at key l i' h o' → o = o'.
Proof.
  intros (Hi & Hk & Hmin) (Hi' & Hk' & Hmin').
  destruct (decide (i < i')) as [Hlt|Hge].
  { by destruct (Hmin' i o Hlt Hi). }
  destruct (decide (i' < i)) as [Hlt'|Hge'].
  { by destruct (Hmin i' o' Hlt' Hi'). }
  assert (i = i') as -> by lia. congruence.
Qed.

Lemma first_at_snoc (l : list string) (p : string) (i : nat)
    (h : option string) (o : string) :
  first_at key (l ++ [p]) i h o ↔
    first_at key l i h o ∨
    (i = length l ∧ o = p ∧ key p = h ∧ ∀ j q, l !! j = Some q → key q ≠ h).
Proof.
  split.
  - intros (Hi & Hk & Hmin).
    destruct (decide (i < length l)) as [Hlt|Hge].
    + left. rewrite lookup_app_l in Hi by done.
      split; [done|]. split; [done|].
      intros j q Hj Hq. apply (Hmin j q Hj).
      by apply lookup_app_l_Some.
    + right.
      pose proof (lookup_lt_Some _ _ _ Hi) as Hlen.
      rewrite length_app in Hlen. simpl in Hlen.
      assert (i = length l) as -> by lia.
      rewrite list_lookup_middle in Hi by done. simplify_eq.
      split; [done|]. split; [done|]. split; [done|].
      intros j q Hq. apply (Hmin j q).
      * by eapply lookup_lt_Some.
      * by apply lookup_app_l_Some.
  - intros [(Hi & Hk & Hmin)|(-> & -> & Hk & Hnone)].
    + split; [by apply lookup_app_l_Some|]. split; [done|].
      intros j q Hj Hq.
      pose proof (lookup_lt_Some _ _ _ Hi) as Hlt.
      rewrite lookup_app_l in Hq by lia. by apply (Hmin j q).
    + split; [by apply list_lookup_middle|]. split; [done|].
      intros j q Hj Hq. rewrite lookup_app_l in Hq by done.
      by apply (Hnone j q).
Qed.

(** A file with checksum [h] at position [j] has a first file with that
    checksum at or before it. *)
Lemma first_at_exists (l : list string) (j : nat) (q : string) (h : option string) :
  l !! j = Some q → key q = h →
  ∃ i o, i ≤ j ∧ first_at key l i h o.
Proof.
  revert q. induction j as [j IH] using lt_wf_ind. intros q Hj Hk.
  destruct (decide (Exists (λ x, key x = h) (take j l))) as [Hex|Hno].
  - apply Exists_exists in Hex as (x & Hx & Hkx).
    apply list_elem_of_lookup in Hx as [j' Hj'].
    pose proof (lookup_lt_Some _ _ _ Hj') as Hlt.
    rewrite length_take in Hlt.
    rewrite lookup_take_lt in Hj' by lia.
    destruct (IH j' ltac:(lia) x Hj' Hkx) as (i & o & Hle & Hf).
    exists i, o. split; [lia | done].
  - exists j, q. split; [done|]. split; [done|]. split; [done|].
    intros j' x Hlt Hx Hkx. apply Hno.
    apply Exists_exists. exists x. split; [|done].
    apply list_elem_of_lookup. exists j'. by rewrite lookup_take_lt.
Qed.

Lemma repeats_snoc (l : list string) (p d o : string) :
  repeats key (l ++ [p]) d o ↔
    repeats key l d o ∨ (d = p ∧ ∃ i, first_at key l i (key p) o).
Proof.
  split.
  - intros (k & i & Hk & Hlt & Hf).
    apply first_at_snoc in Hf as [Hf|(-> & _)].
    + destruct (decide (k < length l)) as [Hkl|Hkl].
      * left. exists k, i. by rewrite lookup_app_l in Hk.
      * right.
        pose proof (lookup_lt_Some _ _ _ Hk) as Hlen.
        rewrite length_app in Hlen. simpl in Hlen.
        assert (k = length l) as -> by lia.
        rewrite list_lookup_middle in Hk by done. simplify_eq. eauto.
    + pose proof (lookup_lt_Some _ _ _ Hk) as Hlen.
      rewrite length_app in Hlen. simpl in Hlen. lia.
  - intros [(k & i & Hk & Hlt & Hf)|(-> & i & Hf)].
    + exists k, i. split; [by apply lookup_app_l_Some|]. split; [done|].
      apply first_at_snoc. by left.
    + exists (length l), i. split; [by apply list_lookup_middle|].
      split; [by eapply first_at_lt|].
      apply first_at_snoc. by left.
Qed.

End FirstAt.

Lemma find_duplicates_loop_spec (hashlib : module) (key : string → option string)
    (rest : list string) :
  ∀ (pre : list string) (hashes : gmap (option string) string)
    (dups : list (string * string)) (w : World),
  (∀ p, md5_of hashlib w p = key p) →
  (∀ h o, hashes !! h = Some o ↔ ∃ i, first_at key pre i h o) →
  (∀ d o, (d, o) ∈ dups ↔ repeats key pre d o) →
  ∃ ds w', find_duplicates_loop hashlib rest hashes dups w = (inl ds, w') ∧
    fs w' = fs w ∧
    ∀ d o, (d, o) ∈ ds ↔ repeats key (pre ++ rest)%list d o.
Proof.
  induction rest as [|p rest IH]; intros pre hashes dups w Hkey Hh Hd.
  - exists dups, w. rewrite app_nil_r. by split.
  - cbn [find_duplicates_loop].
    destruct (md5_of_run hashlib p w) as (w1 & E & Hf1).
    rewrite Hkey in E.
    assert (Hkey1 : ∀ q, md5_of hashlib w1 q = key q).
    { intros q. rewrite <- Hkey. apply md5_of_files. by rewrite Hf1. }
    unfold bind at 1. unfold try_except. unfold bind at 1. rewrite E.
    replace (pre ++ p :: rest)%list with ((pre ++ [p]) ++ rest)%list
      by (by rewrite <- app_assoc).
    destruct (hashes !! key p) as [o|] eqn:Hp.
    + unfold ret. cbn [fst snd].
      destruct (IH (pre ++ [p])%list hashes (dups ++ [(p, o)])%list w1 Hkey1)
        as (ds & w' & Erun & Hf & Hds).
      * intros h o'. rewrite Hh. split.
        -- intros [i Hi]. exists i. apply first_at_snoc. by left.
        -- intros [i Hi]. apply first_at_snoc in Hi as [Hi|(_ & _ & Hk & Hnone)].
           ++ eauto.
           ++ apply Hh in Hp as [i0 (Hi0 & Hk0 & _)].
              destruct (Hnone i0 o Hi0). congruence.
      * intros d o'. rewrite elem_of_app, Hd, repeats_snoc.
        rewrite list_elem_of_singleton. split.
        -- intros [Hr|Heq]; [by left|]. simplify_eq. right.
           split; [done|]. by apply Hh.
        -- intros [Hr|(-> & i & Hi)]; [by left|]. right.
           apply Hh in Hp as [i0 Hi0].
           by rewrite (first_at_unique key pre i i0 (key p) o' o Hi Hi0).
      * exists ds, w'. split; [exact Erun|]. split; [congruence | done].
    + unfold ret. cbn [fst snd].
      assert (Hnone : ∀ j q, pre !! j = Some q → key q ≠ key p).
      { intros j q Hj Hk.
        destruct (first_at_exists key pre j q (key p) Hj Hk) as (i & o & _ & Hi).
        assert (hashes !! key p = Some o) as Hs by (apply Hh; eauto).
        congruence. }
      destruct (IH (pre ++ [p])%list (<[key p := p]> hashes) dups w1 Hkey1)
        as (ds & w' & Erun & Hf & Hds).
      * intros h o'. rewrite lookup_insert_Some. split.
        -- intros [[<- <-]|[Hne Hs]].
           ++ exists (length pre). apply first_at_snoc. right. done.
           ++ apply Hh in Hs as [i Hi]. exists i. apply first_at_snoc. by left.
        -- intros [i Hi]. apply first_at_snoc in Hi as [Hi|(_ & -> & Hk & _)].
           ++ right. split.
              ** intros <-.
                 assert (hashes !! key p = Some o') as Hs by (apply Hh; eauto).
                 congruence.
              ** apply Hh. eauto.
           ++ by left.
      * intros d o'. rewrite Hd, repeats_snoc. split; [by left|].
        intros [Hr|(-> & i & Hi)]; [done|].
        assert (hashes !! key p = Some o') as Hs by (apply Hh; eauto).
        congruence.
      * exists ds, w'. split; [exact Erun|]. split; [congruence | done].
Qed.

Lemma find_duplicates_spec (hashlib : module) (paths : list string) (w : World) :
  ∃ ds w', find_duplicates hashlib paths w = (inl ds, w') ∧
    fs w' = fs w ∧
    ∀ d o, (d, o) ∈ ds ↔ repeats (md5_of hashlib w) paths d o.
Proof.
  unfold find_duplicates.
  apply (find_duplicates_loop_spec hashlib (md5_of hashlib w) paths [] ∅ [] w).
  - done.
  - intros h o. rewrite lookup_empty. split; [done|].
    intros [i (Hi & _)]. by rewrite lookup_nil in Hi.
  - intros d o. split.
    + intros Hin. by apply elem_of_nil in Hin.
    + intros (k & i & Hk & _). by rewrite lookup_nil in Hk.
Qed.

End DuplicateFacts.

Section DuplicateExtras.

Import Py Hashlib Checksum ModernUI Duplicates MoreScenario.
Local Open Scope string_scope.
Local Open Scope nat_scope.

(** X15: [find_duplicates] changes no file, and the pairs it shows are
    exactly these: a file paired with the first file, in the order of the
    walk, that has the same checksum, whenever that first file comes before
    it.  A checksum that could not be computed counts as a checksum like any
    other. *)
Theorem find_duplicates_reports
    (hashlib : module) (paths : list string) (w : World) :
  ∃ ds w', find_duplicates hashlib paths w = (inl ds, w') ∧
    fs w' = fs w ∧
    ∀ d o, (d, o) ∈ ds ↔
      ∃ k i, paths !! k = Some d ∧ i < k ∧ paths !! i = Some o ∧
        md5_of hashlib w o = md5_of hashlib w d ∧
        ∀ j q, j < i → paths !! j = Some q →
          md5_of hashlib w q ≠ md5_of hashlib w d.
Proof.
  destruct (find_duplicates_spec hashlib paths w) as (ds & w' & E & Hf & Hds).
  exists ds, w'. split; [done|]. split; [done|].
  intros d o. etransitivity; [apply Hds|].
  unfold repeats, first_at. split.
  - intros (k & i & Hk & Hlt & Hi & Hkey & Hmin). by exists k, i.
  - intros (k & i & Hk & Hlt & Hi & Hkey & Hmin). by exists k, i.
Qed.

(** X16: a file listed after a file of equal content is shown as a
    duplicate.  So is a file that cannot be read when one listed before
    cannot be read either, and, when [hashlib] gives no hash object for
    [md5], every file but the first: their checksum is [None] alike. *)
Theorem find_duplicates_pairs_equal_results
    (hashlib : module) (paths : list string) (w : World)
    (i k : nat) (a b : string) :
  paths !! i = Some a → paths !! k = Some b → i < k →
  fs w !! a = fs w !! b ∨ (∀ al, hashlib "md5" ≠ Hash al) →
  ∃ ds w' o, find_duplicates hashlib paths w = (inl ds, w') ∧
    (b, o) ∈ ds ∧ md5_of hashlib w o = md5_of hashlib w b.
Proof.
  intros Ha Hb Hlt Hsame.
  destruct (find_duplicates_spec hashlib paths w) as (ds & w' & E & Hf & Hds).
  assert (Hk : md5_of hashlib w a = md5_of hashlib w b).
  { destruct Hsame as [Hs|Hn].
    - by apply md5_of_files.
    - by rewrite !md5_of_unknown. }
  destruct (first_at_exists (md5_of hashlib w) paths i a _ Ha Hk)
    as (i0 & o & Hle & Hfirst).
  exists ds, w', o. split; [done|]. split.
  - apply Hds. exists k, i0. split; [done|]. split; [lia | done].
  - by destruct Hfirst as (_ & ? & _).
Qed.

Lemma find_duplicates_pairs_equal_results_witness :
  find_duplicates only_md5 ["a"; "b"; "c"; "x"; "y"] w_files
  = (inl [("c", "a"); ("y", "x")],
     add_log ERROR
       ("Error calculating checksum for " +:+ "y" +:+ ": " +:+
        exn_str (FileNotFoundError "y"))
       (add_log ERROR
          ("Error calculating checksum for " +:+ "x" +:+ ": " +:+
           exn_str (FileNotFoundError "x")) w_files)) ∧
  ∃ ds w' o, find_duplicates only_md5 ["a"; "b"; "c"; "x"; "y"] w_files
             = (inl ds, w') ∧
    ("c", o) ∈ ds ∧ md5_of only_md5 w_files o = md5_of only_md5 w_files "c".
Proof.
  split; [vm_compute; reflexivity|].
  apply (find_duplicates_pairs_equal_results only_md5
           ["a"; "b"; "c"; "x"; "y"] w_files 0 2 "a" "c").
  - reflexivity.
  - reflexivity.
  - lia.
  - left. vm_compute. reflexivity.
Defined.

End DuplicateExtras.

Section DeleteEmptyFacts.

Import Py ModernUI.
Local Open Scope string_scope.
Local Open Scope nat_scope.

Lemma filter_ext_elem {A} (P Q : A → Prop)
    `{∀ x, Decision (P x)} `{∀ x, Decision (Q x)} (l : list A) :
  (∀ x, x ∈ l → (P x ↔ Q x)) → filter P l = filter Q l.
Proof.
  induction l as [|a l IH]; intros Hpq; [done|].
  rewrite !filter_cons.
  assert (Ha : P a ↔ Q a) by (apply Hpq, list_elem_of_here).
  rewrite IH by (intros x Hx; apply Hpq; by apply list_elem_of_further).
  destruct (decide (P a)), (decide (Q a)); tauto || done.
Qed.

Lemma delete_empty_files_loop_app (l1 l2 : list string) (d : nat) (w : World) :
  delete_empty_files_loop (l1 ++ l2) d w =
    match delete_empty_files_loop l1 d w with
    | (inl d', w') => delete_empty_files_loop l2 d' w'
    | (inr e, w') => (inr e, w')
    end.
Proof.
  revert d w. induction l1 as [|p l1 IH]; intros d w; [reflexivity|].
  rewrite <- app_comm_cons. cbn [delete_empty_files_loop].
  unfold bind.
  destruct (Os.path_getsize p w) as [[size|e] w1]; [|reflexivity].
  match goal with
  | |- context [(if size =? 0 then ?a else ?b) w1] =>
      destruct ((if size =? 0 then a else b) w1) as [[d'|e] w2]; [|reflexivity]
  end.
  apply IH.
Qed.

Lemma delete_empty_files_loop_spec (paths : list string) :
  ∀ (d : nat) (w : World),
  NoDup paths → (∀ p, p ∈ paths → is_Some (fs w !! p)) →
  ∃ w', delete_empty_files_loop paths d w
        = (inl (d + length (filter (λ p, fs w !! p = Some "") paths)), w') ∧
    ∀ q, fs w' !! q =
         if decide (q ∈ paths ∧ fs w !! q = Some "") then None else fs w !! q.
Proof.
  induction paths as [|p rest IH]; intros d w Hnd Hex.
  - exists w. rewrite Nat.add_0_r. split; [done|].
    intros q. destruct (decide _) as [[Hin _]|_]; [|done].
    by apply elem_of_nil in Hin.
  - apply NoDup_cons in Hnd as [Hp Hnd].
    destruct (Hex p (list_elem_of_here _ _)) as [c Hc].
    cbn [delete_empty_files_loop].
    unfold bind at 1. unfold Os.path_getsize. rewrite Hc.
    destruct c as [|x c]; cbn [String.length Nat.eqb].
    + unfold bind at 1. unfold try_except. unfold bind at 1.
      unfold Os.remove. rewrite Hc. unfold ret at 1.
      set (w1 := set_fs (delete p (fs w)) w).
      destruct (IH (S d) w1 Hnd) as (w' & E & Hfs).
      { intros q Hq. simpl. rewrite lookup_delete_ne by (intros ->; done).
        apply Hex. by apply list_elem_of_further. }
      exists w'. split.
      * rewrite E. rewrite filter_cons, decide_True by done. simpl.
        rewrite (filter_ext_elem (λ q, fs w1 !! q = Some "")
                   (λ q, fs w !! q = Some "") rest).
        { do 2 f_equal. lia. }
        intros q Hq. simpl. by rewrite lookup_delete_ne by (intros ->; done).
      * intros q. rewrite Hfs. simpl.
        destruct (decide (q = p)) as [->|Hne].
        -- rewrite lookup_delete_eq.
           rewrite (decide_True (P := p ∈ p :: rest ∧ _))
             by (split; [apply list_elem_of_here | done]).
           by destruct (decide _).
        -- rewrite lookup_delete_ne by done.
           destruct (decide (q ∈ rest ∧ fs w !! q = Some "")) as [[H1 H2]|Hn].
           ++ rewrite decide_True; [done|].
              split; [by apply list_elem_of_further | done].
           ++ rewrite decide_False; [done|].
              intros [H1 H2]. apply Hn. split; [|done].
              apply elem_of_cons in H1 as [?|?]; done.
    + unfold bind at 1. unfold ret at 1.
      destruct (IH d w Hnd) as (w' & E & Hfs).
      { intros q Hq. apply Hex. by apply list_elem_of_further. }
      exists w'. split.
      * rewrite E. rewrite filter_cons, decide_False; [done|].
        rewrite Hc. discriminate.
      * intros q. rewrite Hfs.
        destruct (decide (q ∈ rest ∧ fs w !! q = Some "")) as [[H1 H2]|Hn].
        -- rewrite decide_True; [done|].
           split; [by apply list_elem_of_further | done].
        -- rewrite decide_False; [done|].
           intros [H1 H2]. apply Hn. split; [|done].
           apply elem_of_cons in H1 as [->|?]; [|done].
           rewrite Hc in H2. discriminate.
Qed.

End DeleteEmptyFacts.

Section DeleteEmptyExtras.

Import Py ModernUI MoreScenario.
Local Open Scope string_scope.
Local Open Scope nat_scope.



(** X18: the size of a file is read outside the [try].  When a listed file
    is no longer there, [delete_empty_files] raises instead of going on: the
    files listed before it have been handled, and the files listed after it
    are left as they are, the empty ones included. *)
Theorem delete_empty_files_stops_at_missing
    (l1 l2 : list string) (p : string) (w : World) :
  NoDup l1 → (∀ q, q ∈ l1 → is_Some (fs w !! q)) → fs w !! p = None →
  ∃ w', delete_empty_files (l1 ++ p :: l2) w = (inr (FileNotFoundError p), w') ∧
    ∀ q, q ∉ l1 → fs w' !! q = fs w !! q.
Proof.
  intros Hnd Hex Hp. unfold delete_empty_files.
  rewrite delete_empty_files_loop_app.
  destruct (delete_empty_files_loop_spec l1 0 w Hnd Hex) as (w1 & -> & Hfs).
  assert (Hp1 : fs w1 !! p = None).
  { rewrite Hfs. by destruct (decide _). }
  cbn [delete_empty_files_loop]. unfold bind at 1.
  unfold Os.path_getsize. rewrite Hp1.
  exists w1. split; [done|].
  intros q Hq. rewrite Hfs. rewrite decide_False; [done|]. by intros [? _].
Qed.

Lemma delete_empty_files_stops_at_missing_witness :
  ∃ w', delete_empty_files (["a"] ++ "gone" :: ["e"]) w_files
        = (inr (FileNotFoundError "gone"), w') ∧
    fs w' !! "e" = Some "".
Proof.
  destruct (delete_empty_files_stops_at_missing ["a"] ["e"] "gone" w_files)
    as (w' & E & Hfs).
  - apply NoDup_singleton.
  - intros q Hq. apply list_elem_of_singleton in Hq as ->. by eexists.
  - reflexivity.
  - exists w'. split; [exact E|].
    rewrite (Hfs "e"); [reflexivity|].
    intros H. apply list_elem_of_singleton in H. discriminate H.
Defined.

End DeleteEmptyExtras.
